(** * JazzBridge: a shallow embedding of [getmusic.py]

    The development follows the layout of the Python module:

    - [PyStr]: the fragment of Python's [str] and [re] that the module uses
      (code points, whitespace, [strip], [split], [replace], a backtracking
      matcher for the regular expressions that occur in the source);
    - [Titles]: the two [clean_title] strategies ([AlbumFetcher] and
      [JazzProfilesFetcher]);
    - [Pipeline]: the catalogue search, the link conversion and
      [process_feed], over an explicit world (the remote services) and a
      trace of the calls that were made;
    - [Csv] and [OutputGenerator]: the [csv] dialect the module writes in,
      and the Markdown and CSV generators;
    - [Demo]: a small world on which the pipeline runs;
    - [Main] and [TestSample]: the command-line entry point and the sample
      script, with [Observe] for what is read off a run and [Demo2] for a
      second world;
    - [StrFacts], [TitleFacts], [PipelineFacts], [OutputFacts], and then
      [StrMore], [TitleMore], [PipelineMore], [MainFacts]: what is proved of
      them.

    A Python [str] is a sequence of Unicode code points, so a string is a
    list of [N] here.  [self.log] only prints and is left out; what the
    generators write is the text handed to the file. *)

From Stdlib Require Import List NArith Arith Bool Lia String Ascii.
Import ListNotations.

(* ===================================================================== *)
(** ** Python strings *)
(* ===================================================================== *)

Module PyStr.
Local Open Scope N_scope.

Definition pystr := list N.

(** An ASCII literal as a Python string. *)
Definition py (s : string) : pystr :=
  map N_of_ascii (list_ascii_of_string s).

Fixpoint str_eqb (a b : pystr) : bool :=
  match a, b with
  | [], [] => true
  | x :: a', y :: b' => N.eqb x y && str_eqb a' b'
  | _, _ => false
  end.

(** Truth value of a string: [if s:] holds for the non-empty ones. *)
Definition truthy (s : pystr) : bool :=
  match s with [] => false | _ :: _ => true end.

(** [str.isspace] on one code point; it is also what [\s] matches in a
    [str] pattern and what [str.strip()] and [str.split()] remove. *)
Definition is_space (c : N) : bool :=
  ((9 <=? c) && (c <=? 13)) || ((28 <=? c) && (c <=? 32))
  || (c =? 133) || (c =? 160) || (c =? 5760)
  || ((8192 <=? c) && (c <=? 8202))
  || (c =? 8232) || (c =? 8233) || (c =? 8239) || (c =? 8287)
  || (c =? 12288).

Fixpoint lstrip (s : pystr) : pystr :=
  match s with
  | c :: s' => if is_space c then lstrip s' else s
  | [] => []
  end.

Definition rstrip (s : pystr) : pystr := rev (lstrip (rev s)).

(** [s.strip()] *)
Definition strip (s : pystr) : pystr := rstrip (lstrip s).

(** [s.startswith(p)] *)
Fixpoint prefixb (p s : pystr) : bool :=
  match p, s with
  | [], _ => true
  | x :: p', y :: s' => N.eqb x y && prefixb p' s'
  | _ :: _, [] => false
  end.

(** [sub in s], for a non-empty [sub]. *)
Fixpoint contains (sub s : pystr) : bool :=
  prefixb sub s ||
  match s with
  | [] => false
  | _ :: s' => contains sub s'
  end.

(** [c in s] for a single character. *)
Definition has_char (c : N) (s : pystr) : bool := existsb (N.eqb c) s.

(** The first occurrence of [sep]: what stands before it and after it. *)
Fixpoint partition_aux (sep acc s : pystr) : option (pystr * pystr) :=
  if prefixb sep s then Some (rev acc, skipn (List.length sep) s)
  else match s with
       | [] => None
       | c :: s' => partition_aux sep (c :: acc) s'
       end.

(** [s.split(sep, 1)], for a non-empty [sep]: one part when [sep] does not
    occur, two otherwise. *)
Definition split1 (sep s : pystr) : list pystr :=
  match partition_aux sep [] s with
  | Some (a, b) => [a; b]
  | None => [s]
  end.

(** [s.split(c)] for a one-character separator: every occurrence splits. *)
Fixpoint split_char_aux (c : N) (acc s : pystr) : list pystr :=
  match s with
  | [] => [rev acc]
  | x :: s' => if N.eqb x c then rev acc :: split_char_aux c [] s'
               else split_char_aux c (x :: acc) s'
  end.

Definition split_char (c : N) (s : pystr) : list pystr := split_char_aux c [] s.

(** [s.split()]: the maximal runs of non-whitespace. *)
Fixpoint split_ws_aux (acc s : pystr) : list pystr :=
  match s with
  | [] => match acc with [] => [] | _ :: _ => [rev acc] end
  | x :: s' =>
      if is_space x
      then match acc with
           | [] => split_ws_aux [] s'
           | _ :: _ => rev acc :: split_ws_aux [] s'
           end
      else split_ws_aux (x :: acc) s'
  end.

Definition split_ws (s : pystr) : list pystr := split_ws_aux [] s.

(** [sep.join(parts)] *)
Fixpoint join (sep : pystr) (parts : list pystr) : pystr :=
  match parts with
  | [] => []
  | [p] => p
  | p :: ps => p ++ sep ++ join sep ps
  end.

(** [s.replace(old, new)] for a non-empty [old]: the occurrences are found
    from the left and do not overlap.  [skip] counts the characters of the
    occurrence just replaced that are still to be passed over. *)
Fixpoint replace_aux (old new : pystr) (skip : nat) (s : pystr) : pystr :=
  match s with
  | [] => []
  | c :: s' =>
      match skip with
      | S k => replace_aux old new k s'
      | O => if prefixb old s
             then new ++ replace_aux old new (List.length old - 1)%nat s'
             else c :: replace_aux old new 0%nat s'
      end
  end.

Definition replace (old new s : pystr) : pystr := replace_aux old new 0%nat s.

(** [s.lower()] on one code point.  Only the ASCII and Latin-1 rows of the
    table and the one code point that lowers to two are written out; the
    module uses [lower] for the test [' by ' in cleaned.lower()] alone, and
    no code point outside these rows lowers to a space, [b] or [y]. *)
Definition lower_cp (c : N) : pystr :=
  if (65 <=? c) && (c <=? 90) then [c + 32]
  else if (192 <=? c) && (c <=? 222) && negb (c =? 215) then [c + 32]
  else if c =? 304 then [105; 775]
  else [c].

Definition lower (s : pystr) : pystr := flat_map lower_cp s.

End PyStr.

(* ===================================================================== *)
(** ** Regular expressions *)
(* ===================================================================== *)

(** The patterns of the module are sequences of single-character items with
    an optional repetition, the two anchors and capturing groups; the
    matcher is the backtracking one of [re], so that greedy and lazy
    repetitions give up characters in the order [re] does. *)

Module Re.
Import PyStr.
Local Open Scope N_scope.

Inductive cclass :=
  | CLit (c : N)       (* a literal character of the pattern *)
  | CSpace             (* \s *)
  | CDot.              (* .  *)

Inductive quant := One | Star | Plus | LazyPlus.

Inductive node :=
  | Rep (q : quant) (c : cclass)
  | Bol                (* ^ *)
  | Eol                (* $ *)
  | Open               (* ( *)
  | Close.             (* ) *)

Definition regex := list node.

Definition is_upper (c : N) : bool := (65 <=? c) && (c <=? 90).
Definition is_lower (c : N) : bool := (97 <=? c) && (c <=? 122).

(** A literal ASCII character of a pattern compiled with [re.IGNORECASE]
    matches its two cases, and for [i], [k] and [s] the code points whose
    lower case they are or that [re] treats as their equivalents
    (U+0130 and U+0131, U+212A, U+017F). *)
Definition lit_match_ic (p x : N) : bool :=
  let lo := if is_upper p then p + 32 else p in
  if is_lower lo then
    (x =? lo) || (x =? lo - 32)
    || ((lo =? 105) && ((x =? 304) || (x =? 305)))
    || ((lo =? 107) && (x =? 8490))
    || ((lo =? 115) && (x =? 383))
  else x =? p.

(** All patterns of the module are compiled with [re.IGNORECASE] and
    without [re.DOTALL] or [re.MULTILINE]. *)
Definition cmatch (c : cclass) (x : N) : bool :=
  match c with
  | CLit p => lit_match_ic p x
  | CSpace => is_space x
  | CDot => negb (x =? 10)
  end.

(** [$]: at the end of the string, or just before a final newline. *)
Definition at_eol (s : pystr) : bool :=
  match s with
  | [] => true
  | [c] => c =? 10
  | _ => false
  end.

(** The result of a match: where it ends, and the positions at which the
    group parentheses were passed (latest first). *)
Definition mres := (nat * list nat)%type.

Section Repeat.
Variable ok : N -> bool.
Variable k : nat -> pystr -> option mres.

(** As many characters as possible first. *)
Fixpoint greedy (pos : nat) (s : pystr) : option mres :=
  match s with
  | c :: s' =>
      if ok c
      then match greedy (S pos) s' with
           | Some r => Some r
           | None => k pos s
           end
      else k pos s
  | [] => k pos s
  end.

(** As few characters as possible first. *)
Fixpoint lazy (pos : nat) (s : pystr) : option mres :=
  match k pos s with
  | Some r => Some r
  | None =>
      match s with
      | c :: s' => if ok c then lazy (S pos) s' else None
      | [] => None
      end
  end.
End Repeat.

(** Match [p] against [s], the part of the subject that starts at [pos]. *)
Fixpoint match_here (p : regex) (marks : list nat) (pos : nat) (s : pystr)
  : option mres :=
  match p with
  | [] => Some (pos, marks)
  | Bol :: p' => if Nat.eqb pos 0%nat then match_here p' marks pos s else None
  | Eol :: p' => if at_eol s then match_here p' marks pos s else None
  | Open :: p' => match_here p' (pos :: marks) pos s
  | Close :: p' => match_here p' (pos :: marks) pos s
  | Rep One c :: p' =>
      match s with
      | x :: s' => if cmatch c x then match_here p' marks (S pos) s' else None
      | [] => None
      end
  | Rep Star c :: p' => greedy (cmatch c) (match_here p' marks) pos s
  | Rep Plus c :: p' =>
      match s with
      | x :: s' =>
          if cmatch c x
          then greedy (cmatch c) (match_here p' marks) (S pos) s'
          else None
      | [] => None
      end
  | Rep LazyPlus c :: p' =>
      match s with
      | x :: s' =>
          if cmatch c x
          then lazy (cmatch c) (match_here p' marks) (S pos) s'
          else None
      | [] => None
      end
  end.

(** [re.sub(p, '', s)]: the matches are looked for from the left; a
    non-empty one is dropped and the search resumes where it ended; where
    there is none (or an empty one, whose replacement by the empty string
    changes nothing) the character is kept. *)
Fixpoint sub_aux (p : regex) (skip pos : nat) (s : pystr) : pystr :=
  match s with
  | [] => []
  | c :: s' =>
      match skip with
      | S n => sub_aux p n (S pos) s'
      | O =>
          match match_here p [] pos s with
          | Some (e, _) =>
              if Nat.ltb pos e then sub_aux p (e - pos - 1)%nat (S pos) s'
              else c :: sub_aux p 0%nat (S pos) s'
          | None => c :: sub_aux p 0%nat (S pos) s'
          end
      end
  end.

Definition sub_empty (p : regex) (s : pystr) : pystr := sub_aux p 0%nat 0%nat s.

(** [re.search(p, s)]: the first position from which [p] matches. *)
Fixpoint search_aux (p : regex) (pos : nat) (s : pystr) : option mres :=
  match match_here p [] pos s with
  | Some r => Some r
  | None =>
      match s with
      | [] => None
      | _ :: s' => search_aux p (S pos) s'
      end
  end.

Definition search (p : regex) (s : pystr) : option mres := search_aux p 0%nat s.

(** [s[a:b]] *)
Definition slice (a b : nat) (s : pystr) : pystr := firstn (b - a)%nat (skipn a s).

(** [match.group(1)] and [match.group(2)] of a pattern with two groups. *)
Definition groups2 (s : pystr) (r : mres) : option (pystr * pystr) :=
  match snd r with
  | [c2; o2; c1; o1] => Some (slice o1 c1 s, slice o2 c2 s)
  | _ => None
  end.

(** A run of literal characters of a pattern. *)
Definition lits (s : string) : regex := map (fun c => Rep One (CLit c)) (py s).

End Re.

(* ===================================================================== *)
(** ** Title parsing: the two [clean_title] strategies *)
(* ===================================================================== *)

Module Titles.
Import PyStr Re.
Local Open Scope N_scope.

Definition COLON : N := 58.
Definition HYPHEN_SEP : pystr := py " - ".

(** [r'\s*<words>\s*$'] *)
Definition trailing (words : string) : regex :=
  [Rep Star CSpace] ++ lits words ++ [Rep Star CSpace; Eol].

(** The loop [for pattern in self.REMOVE_PATTERNS: cleaned = re.sub(...)]. *)
Definition remove_patterns (patterns : list regex) (title : pystr) : pystr :=
  fold_left (fun cleaned pattern => sub_empty pattern cleaned) patterns title.

(** One separator block of [clean_title]: the parts of a split on the first
    separator, trimmed, when there are two and none is empty. *)
Definition two_parts (parts : list pystr) : option (pystr * pystr) :=
  match parts with
  | [p0; p1] =>
      let artist := strip p0 in
      let album := strip p1 in
      if truthy artist && truthy album then Some (artist, album) else None
  | _ => None
  end.

(** What a fetcher class provides: its feed and its title strategy. *)
Record Fetcher := {
  RSS_URL : pystr;
  REMOVE_PATTERNS : list regex;
  clean_title : pystr -> option (pystr * pystr)
}.

Module AlbumFetcher.

Definition RSS_URL : pystr := py "https://www.allaboutjazz.com/rss_reviews.xml".

Definition REMOVE_PATTERNS : list regex :=
  [ trailing "album review";
    trailing "concert review";
    trailing "premiere";
    trailing "review" ].

(** The title once the suffixes are removed and the result is trimmed. *)
Definition cleaned (title : pystr) : pystr :=
  strip (remove_patterns REMOVE_PATTERNS title).

Definition clean_title (title : pystr) : option (pystr * pystr) :=
  let cleaned := cleaned title in
  if negb (has_char COLON cleaned) then None
  else two_parts (split1 [COLON] cleaned).

End AlbumFetcher.

Module JazzProfilesFetcher.

Definition RSS_URL : pystr :=
  py "https://jazzprofiles.blogspot.com/feeds/posts/default".

Definition REMOVE_PATTERNS : list regex :=
  [ trailing "album review";
    trailing "review";
    [Rep Star CSpace; Rep One (CLit 45); Rep Star CSpace] ++ lits "album"
      ++ [Rep Star CSpace; Eol];
    trailing "[album]" ].

(** [r'^(.+?)\s+by\s+(.+?)$'] *)
Definition BY_PATTERN : regex :=
  [Bol; Open; Rep LazyPlus CDot; Close; Rep Plus CSpace] ++ lits "by"
    ++ [Rep Plus CSpace; Open; Rep LazyPlus CDot; Close; Eol].

Definition cleaned (title : pystr) : pystr :=
  strip (remove_patterns REMOVE_PATTERNS title).

(** The three blocks of the method, each giving the pair it returns, or
    [None] when control falls through to what follows. *)
Definition colon_block (cleaned : pystr) : option (pystr * pystr) :=
  if has_char COLON cleaned then two_parts (split1 [COLON] cleaned) else None.

Definition hyphen_block (cleaned : pystr) : option (pystr * pystr) :=
  if contains HYPHEN_SEP cleaned then two_parts (split1 HYPHEN_SEP cleaned)
  else None.

Definition by_block (cleaned : pystr) : option (pystr * pystr) :=
  if contains (py " by ") (lower cleaned) then
    match search BY_PATTERN cleaned with
    | Some m =>
        match groups2 cleaned m with
        | Some (g1, g2) =>
            let album := strip g1 in
            let artist := strip g2 in
            if truthy artist && truthy album then Some (artist, album)
            else None
        | None => None
        end
    | None => None
    end
  else None.

Definition clean_title (title : pystr) : option (pystr * pystr) :=
  let cleaned := cleaned title in
  match colon_block cleaned with
  | Some found => Some found
  | None =>
      match hyphen_block cleaned with
      | Some found => Some found
      | None => by_block cleaned
      end
  end.

End JazzProfilesFetcher.

Definition album_fetcher : Fetcher :=
  {| RSS_URL := AlbumFetcher.RSS_URL;
     REMOVE_PATTERNS := AlbumFetcher.REMOVE_PATTERNS;
     clean_title := AlbumFetcher.clean_title |}.

Definition jazz_profiles_fetcher : Fetcher :=
  {| RSS_URL := JazzProfilesFetcher.RSS_URL;
     REMOVE_PATTERNS := JazzProfilesFetcher.REMOVE_PATTERNS;
     clean_title := JazzProfilesFetcher.clean_title |}.

End Titles.

(* ===================================================================== *)
(** ** The resolution pipeline and [process_feed] *)
(* ===================================================================== *)

Module Pipeline.
Import PyStr Titles.
Local Open Scope N_scope.

Definition COMMA : N := 44.

(** An exception that leaves the function it is raised in. *)
Inductive exn := IndexError.

Inductive result (A : Type) :=
  | Ok (a : A)
  | Raise (e : exn).
Arguments Ok {A} a.
Arguments Raise {A} e.

(** A feed entry is a dictionary; the two keys the module reads may be
    missing. *)
Record Entry := {
  entry_title : option pystr;
  entry_published : option pystr
}.

(** [d.get(key, default)] *)
Definition get_default (v : option pystr) (default : pystr) : pystr :=
  match v with Some x => x | None => default end.

(** The tuple [(artist, album, album_link, apple_music_link, date)]. *)
Definition row := (pystr * pystr * pystr * pystr * pystr)%type.

Definition row_artist (r : row) : pystr := let '(a, _, _, _, _) := r in a.
Definition row_album (r : row) : pystr := let '(_, b, _, _, _) := r in b.
Definition row_album_link (r : row) : pystr := let '(_, _, l, _, _) := r in l.
Definition row_apple_link (r : row) : pystr := let '(_, _, _, u, _) := r in u.
Definition row_date (r : row) : pystr := let '(_, _, _, _, d) := r in d.

(** The query parameters of the catalogue search. *)
Record search_params := {
  term : pystr;
  media : pystr;
  entity : pystr;
  limit : N
}.

(** The parameters [search_apple_music] sends for an artist and an album. *)
Definition search_request (artist album : pystr) : search_params :=
  {| term := artist ++ py " " ++ album; media := py "music";
     entity := py "album"; limit := 5 |}.

(** The part of a record that comes from the entry alone. *)
Definition row_key (r : row) : pystr * pystr * pystr :=
  (row_artist r, row_album r, row_date r).

(** The country segments [convert_url_to_album_link] removes, and the
    segment it leaves. *)
Definition US : pystr := py "/us/i/".
Definition UK : pystr := py "/uk/i/".
Definition CA : pystr := py "/ca/i/".
Definition BARE : pystr := py "/i/".
Definition COUNTRY_CODES : list pystr := [py "us"; py "uk"; py "ca"].

(** The link has none of the three country segments. *)
Definition country_free (url : pystr) : Prop :=
  contains US url = false /\ contains UK url = false /\ contains CA url = false.

(** What the program does to the outside, in the order it does it. *)
Inductive event :=
  | FeedParse (url : pystr)
  | CatalogGet (params : search_params)
  | Sleep (seconds : N)
  | LinksGet (api_url : pystr).

Definition is_links_get (e : event) : bool :=
  match e with LinksGet _ => true | _ => false end.

(** The number of conversion requests in a trace. *)
Definition conversion_calls (t : list event) : nat :=
  List.length (filter is_links_get t).

Section World.

(** The remote services.  A request may change them, and what they answer
    is not constrained.
    - [feedparser_parse url]: the entries of the feed, or [None] when
      [feedparser.parse] raises;
    - [catalog_get params]: the [results] array of the search response,
      each result with its [collectionViewUrl] when it has one, or [None]
      when the request or the decoding raises [RequestException] or
      [ValueError];
    - [links_get api_url]: the [pageUrl] of the response when it has one,
      or [None] for the same two exceptions. *)
Context {World : Type}.
Variable feedparser_parse : pystr -> World -> option (list Entry) * World.
Variable catalog_get : search_params -> World -> option (list (option pystr)) * World.
Variable links_get : pystr -> World -> option (option pystr) * World.

(** [urllib.parse.quote] *)
Variable quote : pystr -> pystr.

(** [datetime.strptime(s, '%a, %d %b %Y %H:%M:%S %z').strftime('%Y-%m-%d')],
    or [None] when it raises. *)
Variable strptime_ymd : pystr -> option pystr.

Record state := {
  world : World;
  trace : list event
}.

(** Computations that read and change the state and may raise. *)
Definition M (A : Type) : Type := state -> result A * state.

Definition ret {A} (a : A) : M A := fun st => (Ok a, st).

Definition bind {A B} (c : M A) (f : A -> M B) : M B :=
  fun st =>
    match c st with
    | (Ok a, st') => f a st'
    | (Raise e, st') => (Raise e, st')
    end.

Definition lift {A} (r : result A) : M A := fun st => (r, st).

(** One request: the service answers and the call is recorded. *)
Definition request {A} (ev : event) (call : World -> A * World) : M A :=
  fun st =>
    let (answer, w) := call (world st) in
    (Ok answer, {| world := w; trace := trace st ++ [ev] |}).

Definition sleep (seconds : N) : M unit :=
  fun st => (Ok tt, {| world := world st; trace := trace st ++ [Sleep seconds] |}).

Notation "x <- c ;; k" := (bind c (fun x => k))
  (at level 61, c at next level, right associativity).
Notation "c ;;; k" := (bind c (fun _ => k))
  (at level 61, right associativity).

Section Methods.

Variable self : Fetcher.

Definition fetch_rss : M (list Entry) :=
  feed <- request (FeedParse (RSS_URL self)) (feedparser_parse (RSS_URL self)) ;;
  match feed with
  | Some entries => ret entries
  | None => ret []
  end.

Definition search_apple_music (artist album : pystr) : M (option pystr) :=
  let params := search_request artist album in
  response <- request (CatalogGet params) (catalog_get params) ;;
  match response with
  | Some (first_result :: _) =>
      match first_result with
      | Some apple_url =>
          if truthy apple_url then ret (Some apple_url) else ret None
      | None => ret None
      end
  | Some [] => ret None
  | None => ret None
  end.

(** The three [replace] calls on [page_url]. *)
Definition remove_country_code (page_url : pystr) : pystr :=
  let page_url := replace (py "/us/i/") (py "/i/") page_url in
  let page_url := replace (py "/uk/i/") (py "/i/") page_url in
  let page_url := replace (py "/ca/i/") (py "/i/") page_url in
  page_url.

(** The address the conversion requests. *)
Definition api_url (music_url : pystr) : pystr :=
  py "https://api.song.link/v1-alpha.1/links?url=" ++ quote music_url.

Definition convert_url_to_album_link (music_url : pystr) : M (option pystr) :=
  let api_url := api_url music_url in
  sleep 6 ;;;
  response <- request (LinksGet api_url) (links_get api_url) ;;
  match response with
  | Some (Some page_url) =>
      if truthy page_url then ret (Some (remove_country_code page_url))
      else ret None
  | Some None => ret None
  | None => ret None
  end.

(** [if x:] on an optional string. *)
Definition truthy_opt (x : option pystr) : bool :=
  match x with Some s => truthy s | None => false end.

(** [x or ''] *)
Definition or_empty (x : option pystr) : pystr :=
  match x with Some s => s | None => [] end.

Definition search_album_link (artist album : pystr) : M (option pystr) :=
  apple_url <- search_apple_music artist album ;;
  if truthy_opt apple_url then
    album_link <- convert_url_to_album_link (or_empty apple_url) ;;
    if truthy_opt album_link then ret album_link else ret None
  else ret None.

(** The date block of the loop body.  The [except] branch indexes the
    parts of a split at the commas. *)
Definition parse_date (pub_date : pystr) : result pystr :=
  if truthy pub_date then
    match strptime_ymd pub_date with
    | Some date_str => Ok date_str
    | None =>
        match nth_error (split_char COMMA pub_date) 1 with
        | Some part => Ok (join (py " ") (firstn 3 (split_ws (strip part))))
        | None => Raise IndexError
        end
    end
  else Ok [].

(** The body of the loop of [process_feed] for one entry; [results] is
    the list built so far. *)
Definition process_entry (entry : Entry) (results : list row) : M (list row) :=
  let title := get_default (entry_title entry) [] in
  let pub_date := get_default (entry_published entry) [] in
  date_str <- lift (parse_date pub_date) ;;
  match clean_title self title with
  | None => ret results
  | Some (artist, album) =>
      apple_url <- search_apple_music artist album ;;
      album_link <- (if truthy_opt apple_url
                     then convert_url_to_album_link (or_empty apple_url)
                     else ret None) ;;
      ret (results ++ [(artist, album, or_empty album_link,
                        or_empty apple_url, date_str)])
  end.

Fixpoint process_entries (entries : list Entry) (results : list row)
  : M (list row) :=
  match entries with
  | [] => ret results
  | entry :: rest =>
      results' <- process_entry entry results ;;
      process_entries rest results'
  end.

Definition process_feed : M (list row) :=
  entries <- fetch_rss ;;
  process_entries entries [].

(** What the feed says about one entry, for the statements about the
    order of the records: the pair its title parses to, with its date,
    when the title parses. *)
Definition parsed_entry (entry : Entry) : list (pystr * pystr * pystr) :=
  match clean_title self (get_default (entry_title entry) []),
        parse_date (get_default (entry_published entry) []) with
  | Some (artist, album), Ok date_str => [(artist, album, date_str)]
  | _, _ => []
  end.

(** The date block raises on this entry. *)
Definition date_raises (entry : Entry) : Prop :=
  parse_date (get_default (entry_published entry) []) = Raise IndexError.

End Methods.

End World.

Arguments state World : clear implicits.
Arguments M World A : clear implicits.

End Pipeline.

(* ===================================================================== *)
(** ** Output generation *)
(* ===================================================================== *)

(** The [csv] module in its default dialect ([excel]): a comma as
    delimiter, the double quote as quote character, [QUOTE_MINIMAL],
    [doublequote], line terminator CR LF, no escape character, not strict.
    The writer is what [generate_csv] calls; the reader is the one that
    reads such a file back, fed with the lines of a file opened with
    [newline=''].  Its field size limit, which is a setting of the module,
    is left out. *)

Module Csv.
Import PyStr.
Local Open Scope N_scope.

Definition DELIMITER : N := 44.
Definition QUOTECHAR : N := 34.
Definition CR : N := 13.
Definition LF : N := 10.
Definition LINETERMINATOR : pystr := [CR; LF].

(** *** Writer *)

(** [QUOTE_MINIMAL]: the characters that force the quotes. *)
Definition special (c : N) : bool :=
  (c =? DELIMITER) || (c =? QUOTECHAR) || has_char c LINETERMINATOR.

(** [doublequote]: a quote character is written twice. *)
Definition escape_char (c : N) : pystr :=
  if c =? QUOTECHAR then [QUOTECHAR; QUOTECHAR] else [c].

Definition escape (field : pystr) : pystr := flat_map escape_char field.

Definition write_field (field : pystr) : pystr :=
  if existsb special field
  then [QUOTECHAR] ++ escape field ++ [QUOTECHAR]
  else field.

(** [writer.writerow(fields)]; a record made of one empty field is written
    as a pair of quotes. *)
Definition writerow (fields : list pystr) : pystr :=
  match fields with
  | [[]] => [QUOTECHAR; QUOTECHAR] ++ LINETERMINATOR
  | _ => join [DELIMITER] (map write_field fields) ++ LINETERMINATOR
  end.

(** *** Reader *)





















(** *** The reader on the characters of the file *)





End Csv.

Module OutputGenerator.
Import PyStr Pipeline Csv.
Local Open Scope N_scope.

Definition EM_DASH : N := 8212.
Definition NOTES : N := 127926.

(** The two [f.write] calls, and the third when there is a date, for one
    record. *)
Definition markdown_item (r : row) : pystr :=
  let '(artist, album, album_link, apple_link, date) := r in
  py "- **" ++ artist ++ [32; EM_DASH; 32] ++ album
    ++ py "** [[All](" ++ album_link ++ py ")] [[Apple](" ++ apple_link ++ py ")]"
    ++ (if truthy date then py " _" ++ date ++ py "_" else [])
    ++ [LF].

(** What [generate_markdown] writes to the file. *)
Definition generate_markdown (results : list row) : pystr :=
  py "## " ++ [NOTES] ++ py " New Jazz Albums" ++ [LF; LF]
    ++ py "_Links: [All Platforms] | [Apple Music]_" ++ [LF; LF]
    ++ match results with
       | [] => py "No albums found." ++ [LF]
       | _ :: _ => List.concat (map markdown_item results)
       end.

Definition CSV_HEADER : list pystr :=
  [py "artist"; py "album"; py "album_link"; py "apple_music_link"; py "date"].

(** A tuple as the sequence of fields [writerow] iterates over. *)
Definition row_fields (r : row) : list pystr :=
  let '(artist, album, album_link, apple_link, date) := r in
  [artist; album; album_link; apple_link; date].

(** What [generate_csv] writes to the file. *)
Definition generate_csv (results : list row) : pystr :=
  writerow CSV_HEADER ++ List.concat (map (fun r => writerow (row_fields r)) results).

End OutputGenerator.

(* ===================================================================== *)
(** ** A small world to run the pipeline in *)
(* ===================================================================== *)

Module Demo.
Import PyStr Titles Pipeline.
Local Open Scope N_scope.

Definition is_digit (c : N) : bool := (48 <=? c) && (c <=? 57).

Definition MONTHS : list pystr :=
  map py ["jan"; "feb"; "mar"; "apr"; "may"; "jun";
          "jul"; "aug"; "sep"; "oct"; "nov"; "dec"]%string.

Definition WEEKDAYS : list pystr :=
  map py ["mon"; "tue"; "wed"; "thu"; "fri"; "sat"; "sun"]%string.

Fixpoint index_of (x : pystr) (l : list pystr) (i : N) : option N :=
  match l with
  | [] => None
  | y :: l' => if str_eqb x y then Some i else index_of x l' (i + 1)
  end.

Definition two_digits (n : N) : pystr := [48 + n / 10; 48 + n mod 10].

(** The date of a string spelled [Www, DD Mon YYYY HH:MM:SS +ZZZZ], as
    [YYYY-MM-DD].  It stands for the library call in the examples and reads
    this one spelling only (the library also takes single digits, runs of
    spaces and other zone spellings, and checks the fields' ranges). *)
Definition strptime_ymd (s : pystr) : option pystr :=
  match s with
  | w1 :: w2 :: w3 :: c :: rest =>
      if (c =? COMMA) && existsb (str_eqb (lower [w1; w2; w3])) WEEKDAYS
      then
        match rest with
        | [sp1; d1; d2; sp2; m1; m2; m3; sp3; y1; y2; y3; y4; sp4;
           h1; h2; k1; i1; i2; k2; s1; s2; sp5; sign; z1; z2; z3; z4] =>
            if forallb is_digit [d1; d2; y1; y2; y3; y4; h1; h2; i1; i2;
                                 s1; s2; z1; z2; z3; z4]
               && forallb (N.eqb 32) [sp1; sp2; sp3; sp4; sp5]
               && (k1 =? 58) && (k2 =? 58)
               && ((sign =? 43) || (sign =? 45))
            then
              match index_of (lower [m1; m2; m3]) MONTHS 1 with
              | Some m => Some ([y1; y2; y3; y4; 45] ++ two_digits m ++ [45; d1; d2])
              | None => None
              end
            else None
        | _ => None
        end
      else None
  | _ => None
  end.

(** The services: a feed of two entries, a catalogue that knows one of the
    two albums, and a converter that answers with a link of the American
    store.  The world counts the requests it served. *)
Definition World := nat.

Definition FEED : list Entry :=
  [ {| entry_title := Some (py "Artist A: Album One review");
       entry_published := Some (py "Sun, 02 Nov 2025 10:00:00 +0000") |};
    {| entry_title := Some (py "Artist B: Album Two");
       entry_published := Some (py "Sat, 01 Nov 2025 09:30:00 GMT") |};
    {| entry_title := Some (py "Jazz festival roundup");
       entry_published := None |} ].

Definition feedparser_parse (url : pystr) (w : World) : option (list Entry) * World :=
  (Some FEED, S w).

Definition APPLE_URL : pystr := py "https://music.apple.com/us/album/album-two/2".

Definition catalog_get (params : search_params) (w : World)
  : option (list (option pystr)) * World :=
  (if str_eqb (term params) (py "Artist B Album Two")
   then Some [Some APPLE_URL; None]
   else Some [],
   S w).

Definition links_get (api_url : pystr) (w : World) : option (option pystr) * World :=
  (Some (Some (py "https://album.link/us/i/id123")), S w).

(** The examples do not depend on how the link is quoted. *)
Definition quote (s : pystr) : pystr := s.

Definition start : state World := {| world := 0%nat; trace := [] |}.

(** A feed whose dates are written as Atom feeds write them. *)
Definition ATOM_FEED : list Entry :=
  [ {| entry_title := Some (py "Artist A: Album One");
       entry_published := Some (py "2025-11-02T10:00:00Z") |} ].

Definition atom_parse (url : pystr) (w : World) : option (list Entry) * World :=
  (Some ATOM_FEED, S w).

(** The state once the feed has been fetched. *)
Definition fetched : state World :=
  {| world := 1%nat; trace := [FeedParse AlbumFetcher.RSS_URL] |}.

End Demo.

(* ===================================================================== *)
(** ** The entry point and the sample script *)
(* ===================================================================== *)

(** [main] of [getmusic.py], after [parse_args].  What is printed is left
    out.  A file is opened and written through [write_file]; the run keeps
    the list of the files it handed over, in order, with their text. *)

Module Main.
Import PyStr Titles Pipeline OutputGenerator.
Local Open Scope N_scope.

Inductive Format := markdown | csv | html.

(** The parsed command line. *)
Record Args := {
  output : pystr;
  format : Format;
  verbose : bool;
  skip_jazz_profiles : bool
}.

(** The defaults of the parser. *)
Definition default_args : Args :=
  {| output := py "jazz_albums.md"; format := markdown;
     verbose := false; skip_jazz_profiles := false |}.

Section World.

Context {World : Type}.
Variable feedparser_parse : pystr -> World -> option (list Entry) * World.
Variable catalog_get : search_params -> World -> option (list (option pystr)) * World.
Variable links_get : pystr -> World -> option (option pystr) * World.
Variable quote : pystr -> pystr.
Variable strptime_ymd : pystr -> option pystr.

(** [open(path, 'w')] followed by the writes: [false] when it raises. *)
Variable write_file : pystr -> pystr -> World -> bool * World.

(** The text [generate_html] builds from the two lists; it reads the
    clock. *)
Variable html_content : list row -> option (list row) -> World -> pystr * World.

(** What a run of [main] leaves: the exit code, the files handed to
    [write_file] and the state. *)
Record outcome := {
  exit_code : N;
  files : list (pystr * pystr);
  final : state World
}.

(** The [sum(1 for _, _, link, _, _ in results if link)] of [main]. *)
Definition with_links (results : list row) : nat :=
  List.length (filter (fun r => truthy (row_album_link r)) results).

Definition without_links (results : list row) : nat :=
  (List.length results - with_links results)%nat.

(** The text the chosen generator writes. *)
Definition render (fmt : Format) (aaj_results : list row)
    (jp_results : option (list row)) (w : World) : pystr * World :=
  match fmt with
  | markdown => (generate_markdown aaj_results, w)
  | csv => (generate_csv aaj_results, w)
  | html => html_content aaj_results jp_results w
  end.

Definition main (args : Args) (st : state World) : outcome :=
  match process_feed feedparser_parse catalog_get links_get quote strptime_ymd
          album_fetcher st with
  | (Raise _, st1) => {| exit_code := 1; files := []; final := st1 |}
  | (Ok aaj_results, st1) =>
      let jp :=
        if skip_jazz_profiles args then (Ok None, st1)
        else
          match process_feed feedparser_parse catalog_get links_get quote
                  strptime_ymd jazz_profiles_fetcher st1 with
          | (Ok jp_results, st2) => (Ok (Some jp_results), st2)
          | (Raise e, st2) => (Raise e, st2)
          end in
      match jp with
      | (Raise _, st2) => {| exit_code := 1; files := []; final := st2 |}
      | (Ok jp_results, st2) =>
          let (text, w) := render (format args) aaj_results jp_results (world st2) in
          let (written, w') := write_file (output args) text w in
          {| exit_code := if written then 0 else 1;
             files := [(output args, text)];
             final := {| world := w'; trace := trace st2 |} |}
      end
  end.

End World.

End Main.

(** [test_sample.py].  Its records are tuples of four strings, so a tuple is
    a list of strings here. *)

Module TestSample.
Import PyStr Titles Pipeline Csv OutputGenerator.
Local Open Scope N_scope.

Definition E_ACUTE : N := 233.

Definition sample_titles : list pystr :=
  [ py "Martin Nodeland: Tributaries album review";
    py "Jane Monheit: Come What May";
    py "Brad Mehldau: Your Mother Should Know: Brad Mehldau Plays The Beatles";
    py "C" ++ [E_ACUTE] ++ py "cile McLorin Salvant: M" ++ [E_ACUTE] ++ py "lusine" ].

(** The loop of [generate_markdown] on tuples of any length: the text
    written so far and whether unpacking a tuple into the five names
    raised [ValueError]. *)
Fixpoint markdown_items (results : list (list pystr)) : pystr * bool :=
  match results with
  | [] => ([], false)
  | [artist; album; album_link; apple_link; date] :: rest =>
      let (text, raised) := markdown_items rest in
      (markdown_item (artist, album, album_link, apple_link, date) ++ text, raised)
  | _ :: _ => ([], true)
  end.

(** The two lines [generate_markdown] writes first. *)
Definition MARKDOWN_HEADER : pystr :=
  py "## " ++ [NOTES] ++ py " New Jazz Albums" ++ [Csv.LF; Csv.LF]
    ++ py "_Links: [All Platforms] | [Apple Music]_" ++ [Csv.LF; Csv.LF].

(** [generate_markdown] on such tuples: what reaches the file, and whether
    [ValueError] was raised. *)
Definition generate_markdown_tuples (results : list (list pystr)) : pystr * bool :=
  match results with
  | [] => (MARKDOWN_HEADER ++ py "No albums found." ++ [Csv.LF], false)
  | _ :: _ =>
      let (text, raised) := markdown_items results in
      (MARKDOWN_HEADER ++ text, raised)
  end.

(** [generate_csv] takes tuples of any length as they are. *)
Definition generate_csv_tuples (results : list (list pystr)) : pystr :=
  writerow CSV_HEADER ++ List.concat (map writerow results).

(** How the script ends. *)
Inductive ending :=
  | NoResults
  | Written (markdown_text csv_text : pystr)
  | ValueError (markdown_text : pystr).

Section World.

Context {World : Type}.
Variable catalog_get : search_params -> World -> option (list (option pystr)) * World.
Variable links_get : pystr -> World -> option (option pystr) * World.
Variable quote : pystr -> pystr.

(** The loop over the titles; [results] is the list built so far. *)
Fixpoint sample_loop (titles : list pystr) (results : list (list pystr))
  : M World (list (list pystr)) :=
  match titles with
  | [] => ret results
  | title :: rest =>
      match AlbumFetcher.clean_title title with
      | None => sample_loop rest results
      | Some (artist, album) =>
          bind (search_album_link catalog_get links_get quote artist album)
            (fun album_link =>
               if truthy_opt album_link
               then sample_loop rest
                      (results ++ [[artist; album; or_empty album_link; py "2025-11-02"]])
               else sample_loop rest results)
      end
  end.

Definition test_with_sample_data : M World ending :=
  bind (sample_loop sample_titles []) (fun results =>
    match results with
    | [] => ret NoResults
    | _ :: _ =>
        let (markdown_text, raised) := generate_markdown_tuples results in
        if raised then ret (ValueError markdown_text)
        else ret (Written markdown_text (generate_csv_tuples results))
    end).

End World.

End TestSample.

(* ===================================================================== *)
(** ** What is observed of a run *)
(* ===================================================================== *)

Module Observe.
Import PyStr Re Titles Pipeline.
Local Open Scope N_scope.

(** A string that is not empty and neither starts nor ends with
    whitespace. *)
Definition trimmed (s : pystr) : Prop :=
  s <> [] /\ is_space (hd 32 s) = false /\ is_space (last s 32) = false.

(** A continuation of the matcher that can only succeed at the end of the
    subject. *)
Definition to_the_end (k : nat -> pystr -> option mres) : Prop :=
  forall pos s r, k pos s = Some r -> fst r = (pos + List.length s)%nat.

(** The patterns of a list all end in [\s*$]. *)
Definition trailing_patterns (patterns : list regex) : Prop :=
  Forall (fun p => exists q, p = q ++ [Rep Star CSpace; Eol]) patterns.

(** The requests one record stands for: its search and, when the search
    found a link, the pause and the conversion of that link. *)
Definition record_events (quote : pystr -> pystr) (r : row) : list event :=
  CatalogGet (search_request (row_artist r) (row_album r))
  :: (if truthy (row_apple_link r)
      then [Sleep 6; LinksGet (api_url quote (row_apple_link r))]
      else []).

(** Every conversion request of a trace comes right after a pause of six
    seconds; [slept] says that the event before the trace was one. *)
Fixpoint throttled_from (slept : bool) (t : list event) : bool :=
  match t with
  | [] => true
  | LinksGet _ :: t' => slept && throttled_from false t'
  | Sleep seconds :: t' => throttled_from (seconds =? 6) t'
  | _ :: t' => throttled_from false t'
  end.

Definition throttled (t : list event) : bool := throttled_from false t.

Definition is_catalog_get (e : event) : bool :=
  match e with CatalogGet _ => true | _ => false end.

(** The number of catalogue requests in a trace. *)
Definition catalog_calls (t : list event) : nat :=
  List.length (filter is_catalog_get t).

(** The seconds a trace spends in [time.sleep]. *)
Fixpoint seconds_slept (t : list event) : N :=
  match t with
  | [] => 0
  | Sleep seconds :: t' => seconds + seconds_slept t'
  | _ :: t' => seconds_slept t'
  end.

(** The records whose search found a link. *)
Definition found_in_catalog (results : list row) : nat :=
  List.length (filter (fun r => truthy (row_apple_link r)) results).

(** A record as the two fetchers build them: the artist and the album are
    not empty and are trimmed, and a record with a universal link has the
    catalogue link it was converted from. *)
Definition well_formed (r : row) : Prop :=
  trimmed (row_artist r) /\ trimmed (row_album r)
  /\ (row_album_link r <> [] -> row_apple_link r <> []).

(** The entries [fetch_rss] returns in a state. *)
Definition fetched_entries {World : Type}
    (feedparser_parse : pystr -> World -> option (list Entry) * World)
    (self : Fetcher) (st : state World) : list Entry :=
  match fst (feedparser_parse (RSS_URL self) (world st)) with
  | Some entries => entries
  | None => []
  end.

End Observe.

(** More of the small world: a second feed, services that always answer,
    and a file system that takes every file. *)

Module Demo2.
Import PyStr Titles Pipeline.
Local Open Scope N_scope.

Definition JP_FEED : list Entry :=
  [ {| entry_title := Some (py "Miles Davis - Kind of Blue [Album]");
       entry_published := Some (py "Sun, 02 Nov 2025 10:00:00 +0000") |} ].

Definition is_jazz_profiles (url : pystr) : bool :=
  str_eqb url JazzProfilesFetcher.RSS_URL.

Definition two_feeds (url : pystr) (w : Demo.World) : option (list Entry) * Demo.World :=
  (Some (if is_jazz_profiles url then JP_FEED else Demo.FEED), S w).

Definition two_feeds_atom (url : pystr) (w : Demo.World)
  : option (list Entry) * Demo.World :=
  (Some (if is_jazz_profiles url then Demo.ATOM_FEED else Demo.FEED), S w).

Definition no_feed (url : pystr) (w : Demo.World) : option (list Entry) * Demo.World :=
  (None, S w).

Definition catalog_all (params : search_params) (w : Demo.World)
  : option (list (option pystr)) * Demo.World :=
  (Some [Some Demo.APPLE_URL], S w).

Definition write_file (path text : pystr) (w : Demo.World) : bool * Demo.World :=
  (true, S w).

(** The examples do not read the page. *)
Definition html_content (aaj_results : list row) (jp_results : option (list row))
    (w : Demo.World) : pystr * Demo.World :=
  (py "<!DOCTYPE html>", w).

Definition markdown_args : Main.Args := Main.default_args.

End Demo2.

(* ===================================================================== *)
(** ** Facts about the string operations *)
(* ===================================================================== *)

Module StrFacts.
Import PyStr Re.
Local Open Scope N_scope.

Lemma lstrip_incl (c : N) (s : pystr) : In c (lstrip s) -> In c s.
Proof.
  induction s as [|x s IH]; simpl; auto.
  destruct (is_space x); auto.
Qed.

Lemma strip_incl (c : N) (s : pystr) : In c (strip s) -> In c s.
Proof.
  unfold strip, rstrip. intros H.
  apply lstrip_incl. apply in_rev. apply lstrip_incl. apply in_rev. exact H.
Qed.

Lemma sub_aux_incl (p : regex) (c : N) (s : pystr) :
  forall skip pos, In c (sub_aux p skip pos s) -> In c s.
Proof.
  induction s as [|x s IH]; simpl; auto.
  intros [|n] pos.
  - destruct (match_here p [] pos (x :: s)) as [[e ms]|].
    + destruct (Nat.ltb pos e); simpl; intros H.
      * right. eapply IH; eauto.
      * destruct H; [now left | right; eapply IH; eauto].
    + simpl. intros [H|H]; [now left | right; eapply IH; eauto].
  - intros H. right. eapply IH; eauto.
Qed.

Lemma has_char_In (c : N) (s : pystr) : has_char c s = true <-> In c s.
Proof.
  unfold has_char. rewrite existsb_exists. split.
  - intros [x [Hx E]]. apply N.eqb_eq in E. now subst.
  - intros H. exists c. split; auto. apply N.eqb_refl.
Qed.

Lemma has_char_false (c : N) (s : pystr) : has_char c s = false <-> ~ In c s.
Proof.
  rewrite <- has_char_In. destruct (has_char c s); split; congruence.
Qed.

(** The split on a one-character separator finds the first occurrence. *)
Lemma partition_char_found (c : N) (before after : pystr) :
  ~ In c before ->
  forall acc, partition_aux [c] acc (before ++ c :: after) = Some (rev acc ++ before, after).
Proof.
  induction before as [|x b IH]; intros Hn acc.
  - simpl. rewrite N.eqb_refl. simpl. now rewrite app_nil_r.
  - simpl. destruct (N.eqb_spec c x) as [->|Hne].
    + exfalso. apply Hn. now left.
    + simpl. rewrite IH.
      * simpl. now rewrite <- app_assoc.
      * intros H. apply Hn. now right.
Qed.

Lemma partition_char_inv (c : N) (s : pystr) :
  forall acc a b,
    partition_aux [c] acc s = Some (a, b) ->
    exists before, a = rev acc ++ before /\ s = before ++ c :: b /\ ~ In c before.
Proof.
  induction s as [|x s IH]; intros acc a b; simpl.
  - discriminate.
  - destruct (N.eqb_spec c x) as [->|Hne]; simpl.
    + intros H. inversion H; subst. exists []. rewrite app_nil_r. auto.
    + intros H. apply IH in H. destruct H as [bf [Ha [Hs Hn]]].
      exists (x :: bf). simpl in Ha. rewrite <- app_assoc in Ha. simpl in Ha.
      repeat split; auto.
      * simpl. now f_equal.
      * intros [E|E]; [congruence | auto].
Qed.

Lemma truthy_nonempty (s : pystr) : truthy s = true <-> s <> [].
Proof. destruct s; simpl; split; congruence. Qed.

Lemma prefixb_refl_app (p rest : pystr) : prefixb p (p ++ rest) = true.
Proof. induction p as [|x p IH]; simpl; auto. now rewrite N.eqb_refl. Qed.

Lemma skipn_length_app (p rest : pystr) : skipn (List.length p) (p ++ rest) = rest.
Proof. induction p; simpl; auto. Qed.

(** A prefix test only reads as many characters as the prefix has. *)
Lemma prefixb_app_short (p u v : pystr) :
  (List.length p <= List.length u)%nat -> prefixb p (u ++ v) = prefixb p u.
Proof.
  revert u. induction p as [|x p IH]; intros u Hl; simpl; auto.
  destruct u as [|y u]; simpl in *; [lia|].
  rewrite IH by lia. reflexivity.
Qed.

Lemma contains_here (sub s : pystr) : contains sub s = false -> prefixb sub s = false.
Proof. destruct s; simpl; intros H; apply orb_false_iff in H; tauto. Qed.

Lemma contains_tail (sub : pystr) (x : N) (s : pystr) :
  contains sub (x :: s) = false -> contains sub s = false.
Proof. simpl. intros H. apply orb_false_iff in H. tauto. Qed.

Lemma length_removelast (s : pystr) : s <> [] -> S (List.length (removelast s)) = List.length s.
Proof.
  intros H. rewrite (app_removelast_last 0 H) at 2.
  rewrite length_app. simpl. lia.
Qed.

(** The split finds the first occurrence of a separator of any length:
    [sep] does not occur in [before] followed by all of [sep] but its last
    character. *)
Lemma partition_aux_eq (sep acc s : pystr) :
  partition_aux sep acc s =
  if prefixb sep s then Some (rev acc, skipn (List.length sep) s)
  else match s with
       | [] => None
       | c :: s' => partition_aux sep (c :: acc) s'
       end.
Proof. destruct s; reflexivity. Qed.

Lemma partition_found (sep before after : pystr) :
  sep <> [] ->
  contains sep (before ++ removelast sep) = false ->
  forall acc,
    partition_aux sep acc (before ++ sep ++ after) = Some (rev acc ++ before, after).
Proof.
  intros Hsep. induction before as [|x b IH]; intros Hc acc.
  - simpl app. rewrite partition_aux_eq, prefixb_refl_app, skipn_length_app.
    now rewrite app_nil_r.
  - assert (Hp : prefixb sep ((x :: b) ++ sep ++ after) = false).
    { rewrite (app_removelast_last 0 Hsep) at 2.
      rewrite <- app_assoc, app_assoc.
      rewrite prefixb_app_short.
      - apply contains_here. exact Hc.
      - rewrite length_app. pose proof (length_removelast sep Hsep). simpl. lia. }
    rewrite partition_aux_eq, Hp. cbn [app].
    rewrite (IH (contains_tail _ _ _ Hc)).
    simpl. now rewrite <- app_assoc.
Qed.

Lemma contains_app_intro (sub before after : pystr) :
  contains sub (before ++ sub ++ after) = true.
Proof.
  induction before as [|x b IH].
  - simpl app. destruct (sub ++ after) eqn:E; simpl;
      rewrite <- E, prefixb_refl_app; reflexivity.
  - simpl. rewrite IH. apply orb_true_r.
Qed.

Lemma replace_aux_skip (old new : pystr) (s : pystr) :
  forall k, replace_aux old new k s = replace_aux old new 0 (skipn k s).
Proof.
  induction s as [|c s IH]; intros [|k]; simpl; auto.
Qed.

Lemma replace_cons_miss (old new : pystr) (c : N) (s : pystr) :
  prefixb old (c :: s) = false ->
  replace old new (c :: s) = c :: replace old new s.
Proof. unfold replace. cbn [replace_aux]. now intros ->. Qed.

Lemma replace_hit (old new rest : pystr) :
  old <> [] ->
  replace old new (old ++ rest) = new ++ replace old new rest.
Proof.
  intros Hne. unfold replace.
  destruct old as [|c old']; [congruence|].
  change ((c :: old') ++ rest) with (c :: (old' ++ rest)).
  cbn [replace_aux].
  change (c :: old' ++ rest) with ((c :: old') ++ rest).
  rewrite prefixb_refl_app. f_equal.
  rewrite replace_aux_skip.
  replace (List.length (c :: old') - 1)%nat with (List.length old') by (simpl; lia).
  now rewrite skipn_length_app.
Qed.

(** A string in which [old] does not occur is left as it is. *)
Lemma replace_absent (old new s : pystr) :
  contains old s = false -> replace old new s = s.
Proof.
  induction s as [|c s IH]; intros H; [reflexivity|].
  rewrite replace_cons_miss by (now apply contains_here).
  f_equal. apply IH. eapply contains_tail; eauto.
Qed.

(** The first occurrence is replaced and the scan resumes after it. *)
Lemma replace_first (old new before after : pystr) :
  old <> [] ->
  contains old (before ++ removelast old) = false ->
  replace old new (before ++ old ++ after) = before ++ new ++ replace old new after.
Proof.
  intros Hne. induction before as [|x b IH]; intros Hc.
  - simpl app. now apply replace_hit.
  - assert (Hp : prefixb old ((x :: b) ++ old ++ after) = false).
    { rewrite (app_removelast_last 0 Hne) at 2.
      rewrite <- app_assoc, app_assoc.
      rewrite prefixb_app_short.
      - apply contains_here. exact Hc.
      - rewrite length_app. pose proof (length_removelast old Hne). simpl. lia. }
    cbn [app] in *. rewrite replace_cons_miss by exact Hp.
    f_equal. apply IH. eapply contains_tail; eauto.
Qed.

Lemma contains_suffix (sub before s : pystr) :
  contains sub (before ++ s) = false -> contains sub s = false.
Proof.
  induction before as [|x b IH]; simpl; auto.
  intros H. apply orb_false_iff in H. tauto.
Qed.

Lemma contains_cons (sub : pystr) (x : N) (s : pystr) :
  contains sub (x :: s) = prefixb sub (x :: s) || contains sub s.
Proof. reflexivity. Qed.

Lemma split_char_aux_absent (c : N) (s : pystr) :
  ~ In c s -> forall acc, split_char_aux c acc s = [rev acc ++ s].
Proof.
  induction s as [|x s IH]; intros Hn acc; simpl.
  - now rewrite app_nil_r.
  - destruct (N.eqb_spec x c) as [->|Hne].
    + exfalso. apply Hn. now left.
    + rewrite IH by (intros H; apply Hn; now right).
      simpl. now rewrite <- app_assoc.
Qed.

End StrFacts.

(* ===================================================================== *)
(** ** The title strategies *)
(* ===================================================================== *)

Module TitleFacts.
Import PyStr Re Titles StrFacts.
Local Open Scope N_scope.

(** Removing the suffixes adds no character to a title. *)
Lemma remove_patterns_incl (ps : list regex) (c : N) :
  forall t, In c (remove_patterns ps t) -> In c t.
Proof.
  unfold remove_patterns.
  induction ps as [|p ps IH]; simpl; auto.
  intros t H. apply IH in H. unfold sub_empty in H. eapply sub_aux_incl; eauto.
Qed.

Lemma two_parts_spec (a b artist album : pystr) :
  two_parts [a; b] = Some (artist, album) <->
  artist = strip a /\ album = strip b /\ artist <> [] /\ album <> [].
Proof.
  unfold two_parts.
  destruct (truthy (strip a)) eqn:Ea, (truthy (strip b)) eqn:Eb; simpl;
    split; try discriminate.
  - intros H. inversion H; subst.
    repeat split; auto; now apply truthy_nonempty.
  - intros (-> & -> & _ & _). reflexivity.
  - intros (-> & -> & _ & H). apply truthy_nonempty in H. congruence.
  - intros (-> & -> & H & _). apply truthy_nonempty in H. congruence.
  - intros (-> & -> & H & _). apply truthy_nonempty in H. congruence.
Qed.

(** The colon rule, shared by the two strategies. *)
Lemma colon_rule_spec (cleaned artist album : pystr) :
  (if has_char COLON cleaned then two_parts (split1 [COLON] cleaned) else None)
    = Some (artist, album) <->
  exists before after,
    cleaned = before ++ COLON :: after /\ ~ In COLON before /\
    artist = strip before /\ album = strip after /\
    artist <> [] /\ album <> [].
Proof.
  split.
  - destruct (has_char COLON cleaned) eqn:Hc; [|discriminate].
    unfold split1.
    destruct (partition_aux [COLON] [] cleaned) as [[a b]|] eqn:Hp.
    + intros H. apply two_parts_spec in H.
      apply partition_char_inv in Hp. destruct Hp as [bf [Ha [Hs Hn]]].
      simpl in Ha. subst a. exists bf, b. tauto.
    + simpl. discriminate.
  - intros (bf & af & Hs & Hn & Ha & Hb & Na & Nb).
    assert (Hc : has_char COLON cleaned = true).
    { apply has_char_In. subst cleaned. apply in_or_app. right. now left. }
    rewrite Hc. unfold split1. subst cleaned.
    rewrite partition_char_found by assumption. simpl rev. simpl app.
    apply two_parts_spec. tauto.
Qed.

(** C2.  Strategy A: [AlbumFetcher.clean_title] returns a pair exactly when
    the title, once the suffixes are removed and the result trimmed, has a
    colon and both sides of its first colon are non-empty after trimming,
    and the pair is these two sides; a title without a colon gives [None];
    ["Artist: Album: Subtitle"] gives the artist ["Artist"] and the album
    ["Album: Subtitle"].  The function is total: it raises nothing. *)
Theorem clean_title_colon_split (title : pystr) :
  (forall artist album,
      AlbumFetcher.clean_title title = Some (artist, album) <->
      exists before after,
        AlbumFetcher.cleaned title = before ++ COLON :: after /\
        ~ In COLON before /\
        artist = strip before /\ album = strip after /\
        artist <> [] /\ album <> [])
  /\ (~ In COLON title -> AlbumFetcher.clean_title title = None)
  /\ AlbumFetcher.clean_title (py "Artist: Album: Subtitle")
     = Some (py "Artist", py "Album: Subtitle").
Proof.
  split; [|split].
  - intros artist album. rewrite <- colon_rule_spec.
    unfold AlbumFetcher.clean_title.
    destruct (has_char COLON (AlbumFetcher.cleaned title)); simpl; reflexivity.
  - intros Hn. unfold AlbumFetcher.clean_title.
    assert (H : has_char COLON (AlbumFetcher.cleaned title) = false).
    { apply has_char_false. intros H. apply Hn.
      unfold AlbumFetcher.cleaned in H.
      apply strip_incl in H. eapply remove_patterns_incl; eauto. }
    now rewrite H.
  - vm_compute. reflexivity.
Qed.

Lemma clean_title_colon_split_witness :
  ~ In COLON (py "X Album Review")
  /\ AlbumFetcher.clean_title (py "X Album Review") = None
  /\ AlbumFetcher.clean_title (py "Martin Nodeland: Tributaries album review")
     = Some (py "Martin Nodeland", py "Tributaries").
Proof.
  assert (H : ~ In COLON (py "X Album Review")).
  { vm_compute. intuition discriminate. }
  split; [exact H | split].
  - exact (proj1 (proj2 (clean_title_colon_split (py "X Album Review"))) H).
  - apply (proj1 (clean_title_colon_split
                    (py "Martin Nodeland: Tributaries album review"))).
    exists (py "Martin Nodeland"), (py " Tributaries").
    repeat split; try (vm_compute; reflexivity); vm_compute; intuition discriminate.
Defined.

Import JazzProfilesFetcher.

Lemma colon_block_spec (c artist album : pystr) :
  colon_block c = Some (artist, album) <->
  exists before after,
    c = before ++ COLON :: after /\ ~ In COLON before /\
    artist = strip before /\ album = strip after /\
    artist <> [] /\ album <> [].
Proof. unfold colon_block. apply colon_rule_spec. Qed.

Lemma hyphen_block_found (before after : pystr) :
  contains HYPHEN_SEP (before ++ py " -") = false ->
  strip before <> [] -> strip after <> [] ->
  hyphen_block (before ++ HYPHEN_SEP ++ after) = Some (strip before, strip after).
Proof.
  intros Hfirst Ha Hb. unfold hyphen_block.
  rewrite contains_app_intro. unfold split1.
  rewrite partition_found; [| discriminate | exact Hfirst].
  simpl rev. simpl app. apply two_parts_spec. tauto.
Qed.

(** C3.  Strategy B: [JazzProfilesFetcher.clean_title] tries the colon,
    then [" - "], then the word [by], and returns the first pair it gets.
    A cleaned title whose colon split succeeds gives that split, whatever
    else it contains (["A: B - C"] gives ["A"] and ["B - C"]); when the
    colon block gives nothing, the split on the first [" - "] is returned;
    when both give nothing and the [by] pattern matches, its second group
    is the artist and its first the album (["Midnight Blue by Kenny
    Burrell"] gives ["Kenny Burrell"] and ["Midnight Blue"]); when the
    three give nothing the result is [None]. *)
Theorem clean_title_separator_priority (title : pystr) :
  (forall before after,
      cleaned title = before ++ COLON :: after -> ~ In COLON before ->
      strip before <> [] -> strip after <> [] ->
      clean_title title = Some (strip before, strip after))
  /\ (forall before after,
      colon_block (cleaned title) = None ->
      cleaned title = before ++ HYPHEN_SEP ++ after ->
      contains HYPHEN_SEP (before ++ py " -") = false ->
      strip before <> [] -> strip after <> [] ->
      clean_title title = Some (strip before, strip after))
  /\ (forall m g1 g2,
      colon_block (cleaned title) = None ->
      hyphen_block (cleaned title) = None ->
      contains (py " by ") (lower (cleaned title)) = true ->
      search BY_PATTERN (cleaned title) = Some m ->
      groups2 (cleaned title) m = Some (g1, g2) ->
      strip g1 <> [] -> strip g2 <> [] ->
      clean_title title = Some (strip g2, strip g1))
  /\ (colon_block (cleaned title) = None ->
      hyphen_block (cleaned title) = None ->
      by_block (cleaned title) = None ->
      clean_title title = None)
  /\ clean_title (py "A: B - C") = Some (py "A", py "B - C")
  /\ clean_title (py "Midnight Blue by Kenny Burrell")
     = Some (py "Kenny Burrell", py "Midnight Blue").
Proof.
  split; [|split; [|split; [|split; [|split]]]].
  - intros before after Hc Hn Ha Hb. unfold clean_title.
    assert (H : colon_block (cleaned title) = Some (strip before, strip after)).
    { apply colon_block_spec. exists before, after. tauto. }
    now rewrite H.
  - intros before after Hcolon Hc Hfirst Ha Hb. unfold clean_title.
    rewrite Hcolon, Hc. now rewrite hyphen_block_found.
  - intros m g1 g2 Hcolon Hhyphen Hby Hs Hg Ha Hb. unfold clean_title.
    rewrite Hcolon, Hhyphen. unfold by_block. rewrite Hby, Hs, Hg.
    apply truthy_nonempty in Ha, Hb. now rewrite Ha, Hb.
  - intros Hcolon Hhyphen Hby. unfold clean_title.
    now rewrite Hcolon, Hhyphen, Hby.
  - vm_compute. reflexivity.
  - vm_compute. reflexivity.
Qed.

Lemma clean_title_separator_priority_witness :
  cleaned (py "A: B - C") = py "A" ++ COLON :: py " B - C"
  /\ contains HYPHEN_SEP (cleaned (py "A: B - C")) = true
  /\ clean_title (py "A: B - C") = Some (strip (py "A"), strip (py " B - C")).
Proof.
  split; [vm_compute; reflexivity | split; [vm_compute; reflexivity |]].
  apply (proj1 (clean_title_separator_priority (py "A: B - C")) (py "A") (py " B - C")).
  - vm_compute. reflexivity.
  - vm_compute. intuition discriminate.
  - vm_compute. discriminate.
  - vm_compute. discriminate.
Defined.

(** C10.  In Strategy B a colon whose split leaves an empty artist or an
    empty album does not end the parsing: the result is what the [" - "]
    block gives on the same cleaned title and, failing that, what the [by]
    block gives.  [": A - B"] is returned as [": A"] and ["B"]. *)
Theorem clean_title_colon_failure_falls_through (title before after : pystr) :
  cleaned title = before ++ COLON :: after ->
  ~ In COLON before ->
  strip before = [] \/ strip after = [] ->
  clean_title title =
    match hyphen_block (cleaned title) with
    | Some found => Some found
    | None => by_block (cleaned title)
    end.
Proof.
  intros Hc Hn Hempty. unfold clean_title.
  destruct (colon_block (cleaned title)) as [[artist album]|] eqn:E; [|reflexivity].
  exfalso. apply colon_block_spec in E.
  destruct E as (b' & a' & Hc' & Hn' & -> & -> & Na & Nb).
  assert (Hp : partition_aux [COLON] [] (cleaned title) = Some (b', a')).
  { rewrite Hc'. now rewrite partition_char_found. }
  rewrite Hc in Hp. rewrite partition_char_found in Hp by assumption.
  simpl in Hp. inversion Hp; subst. tauto.
Qed.

Lemma clean_title_colon_failure_falls_through_witness :
  In COLON (cleaned (py ": A - B"))
  /\ clean_title (py ": A - B") = Some (py ": A", py "B")
  /\ clean_title (py "X by Y:") = Some (py "Y:", py "X").
Proof.
  split; [vm_compute; auto | split].
  - rewrite (clean_title_colon_failure_falls_through (py ": A - B") [] (py " A - B")).
    + vm_compute. reflexivity.
    + vm_compute. reflexivity.
    + simpl. tauto.
    + left. vm_compute. reflexivity.
  - vm_compute. reflexivity.
Defined.

End TitleFacts.

(* ===================================================================== *)
(** ** The resolution pipeline *)
(* ===================================================================== *)

Module PipelineFacts.
Import PyStr Re Titles Pipeline StrFacts.
Local Open Scope N_scope.

(** *** Country codes *)

(** Decide a prefix test on a string whose first characters are known or
    are variables, up to the six characters the patterns have. *)
Ltac eqb_cases :=
  cbn -[N.eqb];
  repeat match goal with
         | |- context [N.eqb ?a ?b] => is_var b; destruct (N.eqb a b); cbn -[N.eqb]
         | |- context [prefixb ?p ?s] => is_var s; destruct (prefixb p s); cbn -[N.eqb]
         end;
  cbn; try reflexivity; try (intros; congruence).

Ltac six_cases pre :=
  destruct pre as [|? [|? [|? [|? [|? ?]]]]].

(** Putting a country code in front of [/i/] gives no match of another
    country's pattern, and none of its own before the place it is put. *)
Lemma prefix_insert (pat code : pystr) (x : N) (pre post : pystr) :
  In pat [US; UK; CA] -> In code [py "/us"; py "/uk"; py "/ca"] ->
  prefixb pat (code ++ BARE) = false ->
  prefixb pat (x :: pre ++ BARE ++ post) = false ->
  prefixb pat (x :: pre ++ code ++ BARE ++ post) = false.
Proof.
  intros Hp Hc Hdiff H.
  simpl in Hp, Hc.
  destruct Hp as [<-|[<-|[<-|[]]]]; destruct Hc as [<-|[<-|[<-|[]]]];
    try discriminate Hdiff; clear Hdiff;
    revert H; six_cases pre; eqb_cases.
Qed.

Lemma prefix_own (pat : pystr) (x : N) (pre post : pystr) :
  In pat [US; UK; CA] ->
  prefixb pat (x :: pre ++ BARE ++ post) = false ->
  prefixb pat (x :: pre ++ removelast pat) = false.
Proof.
  intros Hp H. simpl in Hp.
  destruct Hp as [<-|[<-|[<-|[]]]]; revert H; six_cases pre; eqb_cases.
Qed.

Lemma contains_insert (pat code : pystr) (pre post : pystr) :
  In pat [US; UK; CA] -> In code [py "/us"; py "/uk"; py "/ca"] ->
  prefixb pat (code ++ BARE) = false ->
  contains pat (pre ++ BARE ++ post) = false ->
  contains pat (pre ++ code ++ BARE ++ post) = false.
Proof.
  intros Hp Hc Hdiff. remember (BARE ++ post) as rest eqn:Er.
  induction pre as [|x pre IH]; intros H.
  - cbn [app] in *. clear Er. simpl in Hp, Hc.
    destruct Hp as [<-|[<-|[<-|[]]]]; destruct Hc as [<-|[<-|[<-|[]]]];
      try discriminate Hdiff;
      match goal with
      | |- contains ?p (py ?c ++ rest) = false =>
          let l := eval cbv in (py c) in change (py c) with l
      end;
      cbn [app]; rewrite !contains_cons, H; reflexivity.
  - cbn [app] in *. rewrite contains_cons in *.
    apply orb_false_iff in H. destruct H as [H1 H2].
    subst rest. rewrite (prefix_insert pat code x pre post Hp Hc Hdiff H1).
    now apply IH.
Qed.

Lemma contains_own (pat : pystr) (pre post : pystr) :
  In pat [US; UK; CA] ->
  contains pat (pre ++ BARE ++ post) = false ->
  contains pat (pre ++ removelast pat) = false.
Proof.
  intros Hp. induction pre as [|x pre IH]; intros H.
  - simpl in Hp. destruct Hp as [<-|[<-|[<-|[]]]]; reflexivity.
  - cbn [app] in *. rewrite contains_cons in *.
    apply orb_false_iff in H. destruct H as [H1 H2].
    rewrite (prefix_own pat x pre post Hp H1). now apply IH.
Qed.

(** One [replace] call on a link that has the country segment of the call
    at one place and no other country segment. *)
Lemma replace_own (pat : pystr) (before after : pystr) :
  In pat [US; UK; CA] ->
  contains pat (before ++ BARE ++ after) = false ->
  replace pat BARE (before ++ pat ++ after) = before ++ BARE ++ after.
Proof.
  intros Hp H.
  rewrite replace_first.
  - rewrite (replace_absent pat BARE after); [reflexivity|].
    apply (contains_suffix pat (before ++ BARE)). now rewrite <- app_assoc.
  - simpl in Hp. destruct Hp as [<-|[<-|[<-|[]]]]; discriminate.
  - eapply contains_own; eauto.
Qed.

Lemma replace_other (pat code : pystr) (before after : pystr) :
  In pat [US; UK; CA] -> In code [py "/us"; py "/uk"; py "/ca"] ->
  prefixb pat (code ++ BARE) = false ->
  contains pat (before ++ BARE ++ after) = false ->
  replace pat BARE (before ++ code ++ BARE ++ after) = before ++ code ++ BARE ++ after.
Proof.
  intros Hp Hc Hd H. apply replace_absent. now apply contains_insert.
Qed.

Lemma remove_country_code_absent (url : pystr) :
  country_free url -> remove_country_code url = url.
Proof.
  intros (H1 & H2 & H3). unfold remove_country_code.
  fold US UK CA BARE.
  now rewrite (replace_absent US), (replace_absent UK), (replace_absent CA).
Qed.

Lemma remove_country_code_strips (code before after : pystr) :
  In code COUNTRY_CODES ->
  country_free (before ++ py "/i/" ++ after) ->
  remove_country_code (before ++ py "/" ++ code ++ py "/i/" ++ after)
  = before ++ py "/i/" ++ after.
Proof.
  intros Hc (H1 & H2 & H3). unfold remove_country_code.
  fold US UK CA BARE in *. simpl in Hc.
  destruct Hc as [<-|[<-|[<-|[]]]].
  - change (before ++ py "/" ++ py "us" ++ BARE ++ after)
      with (before ++ US ++ after).
    rewrite (replace_own US) by (simpl; auto).
    now rewrite (replace_absent UK), (replace_absent CA).
  - change (before ++ py "/" ++ py "uk" ++ BARE ++ after)
      with (before ++ py "/uk" ++ BARE ++ after).
    rewrite (replace_other US (py "/uk")) by (simpl; auto).
    change (before ++ py "/uk" ++ BARE ++ after) with (before ++ UK ++ after).
    rewrite (replace_own UK) by (simpl; auto).
    now rewrite (replace_absent CA).
  - change (before ++ py "/" ++ py "ca" ++ BARE ++ after)
      with (before ++ py "/ca" ++ BARE ++ after).
    rewrite (replace_other US (py "/ca")) by (simpl; auto).
    rewrite (replace_other UK (py "/ca")) by (simpl; auto).
    change (before ++ py "/ca" ++ BARE ++ after) with (before ++ CA ++ after).
    now rewrite (replace_own CA) by (simpl; auto).
Qed.

Section Run.

Context {World : Type}.
Variable feedparser_parse : pystr -> World -> option (list Entry) * World.
Variable catalog_get : search_params -> World -> option (list (option pystr)) * World.
Variable links_get : pystr -> World -> option (option pystr) * World.
Variable quote : pystr -> pystr.
Variable strptime_ymd : pystr -> option pystr.
Variable self : Fetcher.

Local Abbreviation search := (search_apple_music catalog_get).
Local Abbreviation convert := (convert_url_to_album_link links_get quote).
Local Abbreviation resolve := (search_album_link catalog_get links_get quote).
Local Abbreviation entry_step := (process_entry catalog_get links_get quote strptime_ymd self).
Local Abbreviation entries_loop := (process_entries catalog_get links_get quote strptime_ymd self).

Local Abbreviation api := (api_url quote).
Local Abbreviation parsed := (parsed_entry strptime_ymd self).
Local Abbreviation raises := (date_raises strptime_ymd).

(** The search makes one request, never raises, and a link it returns is
    not empty. *)
Lemma search_apple_music_runs (artist album : pystr) (st : state World) :
  exists apple_url,
    search artist album st =
      (Ok apple_url,
       {| world := snd (catalog_get (search_request artist album) (world st));
          trace := trace st ++ [CatalogGet (search_request artist album)] |})
    /\ (forall u, apple_url = Some u -> truthy u = true).
Proof.
  unfold search_apple_music, bind, request. fold (search_request artist album).
  destruct (catalog_get (search_request artist album) (world st)) as [resp w] eqn:E.
  cbn [snd].
  destruct resp as [[|[u|] rest]|]; cbn [ret];
    try (exists None; split; [reflexivity | discriminate]).
  destruct (truthy u) eqn:Eu.
  - exists (Some u). split; [reflexivity|]. intros u' H. now inversion H; subst.
  - exists None. split; [reflexivity | discriminate].
Qed.

(** The conversion sleeps, makes one request and never raises. *)
Lemma convert_runs (music_url : pystr) (st : state World) :
  exists album_link,
    convert music_url st =
      (Ok album_link,
       {| world := snd (links_get (api music_url) (world st));
          trace := (trace st ++ [Sleep 6]) ++ [LinksGet (api music_url)] |}).
Proof.
  unfold convert_url_to_album_link, bind, request, sleep.
  fold (api music_url). cbn [world trace].
  destruct (links_get (api music_url) (world st)) as [resp w] eqn:E.
  cbn [snd].
  destruct resp as [[u|]|]; cbn [ret]; try (eexists; reflexivity).
  destruct (truthy u); eexists; reflexivity.
Qed.

Lemma conversion_calls_app (t1 t2 : list event) :
  conversion_calls (t1 ++ t2) = (conversion_calls t1 + conversion_calls t2)%nat.
Proof. unfold conversion_calls. now rewrite filter_app, length_app. Qed.

(** C7.  When the catalogue search of [search_album_link] finds no link,
    the resolver returns [None] and has made the search request and
    nothing else: no conversion request is added to the trace. *)
Theorem search_album_link_short_circuit
    (artist album : pystr) (st st' : state World) :
  search artist album st = (Ok None, st') ->
  resolve artist album st = (Ok None, st')
  /\ trace st' = trace st ++ [CatalogGet (search_request artist album)]
  /\ conversion_calls (trace st') = conversion_calls (trace st).
Proof.
  intros Hs.
  destruct (search_apple_music_runs artist album st) as [r [Hr _]].
  rewrite Hr in Hs. inversion Hs; subst. clear Hs.
  split; [|split].
  - unfold search_album_link, bind. rewrite Hr. reflexivity.
  - reflexivity.
  - cbn [trace]. rewrite conversion_calls_app.
    change (conversion_calls [CatalogGet (search_request artist album)]) with 0%nat.
    lia.
Qed.

(** C6.  When the conversion request succeeds with a non-empty [pageUrl],
    [convert_url_to_album_link] returns that link with its country
    segment removed: a link that has [/us/i/], [/uk/i/] or [/ca/i/] at
    one place, and no country segment once that one is taken out, comes
    back with [/i/] there, and a link without any of the three comes
    back unchanged. *)
Theorem convert_removes_country_code
    (music_url page_url : pystr) (st : state World) (w : World) :
  links_get (api music_url) (world st) = (Some (Some page_url), w) ->
  page_url <> [] ->
  fst (convert music_url st) = Ok (Some (remove_country_code page_url))
  /\ (forall code before after,
        In code COUNTRY_CODES ->
        page_url = before ++ py "/" ++ code ++ py "/i/" ++ after ->
        country_free (before ++ py "/i/" ++ after) ->
        remove_country_code page_url = before ++ py "/i/" ++ after)
  /\ (country_free page_url -> remove_country_code page_url = page_url).
Proof.
  intros Hl Hne. split; [|split].
  - unfold convert_url_to_album_link, bind, request, sleep.
    fold (api music_url). cbn [world trace]. rewrite Hl.
    apply truthy_nonempty in Hne. now rewrite Hne.
  - intros code before after Hc -> Hf. now apply remove_country_code_strips.
  - apply remove_country_code_absent.
Qed.

(** *** The date block *)

(** C4.  The fallback of the date block is fatal for a date that has no
    comma: with a library call that rejects every string without a comma
    (the format has one), [parse_date] raises [IndexError] on any
    non-empty date without a comma, the loop body raises on an entry
    with that date, and so does the loop. *)
Theorem parse_date_raises_without_comma (pub_date : pystr) :
  (forall s, ~ In COMMA s -> strptime_ymd s = None) ->
  pub_date <> [] -> ~ In COMMA pub_date ->
  parse_date strptime_ymd pub_date = Raise IndexError
  /\ (forall entry results st,
        entry_published entry = Some pub_date ->
        entry_step entry results st = (Raise IndexError, st))
  /\ (forall entry rest results st,
        entry_published entry = Some pub_date ->
        entries_loop (entry :: rest) results st = (Raise IndexError, st)).
Proof.
  intros Hfmt Hne Hn.
  assert (Hd : parse_date strptime_ymd pub_date = Raise IndexError).
  { unfold parse_date. apply truthy_nonempty in Hne. rewrite Hne.
    rewrite (Hfmt _ Hn). unfold split_char.
    now rewrite split_char_aux_absent. }
  assert (He : forall entry results st,
             entry_published entry = Some pub_date ->
             entry_step entry results st = (Raise IndexError, st)).
  { intros entry results st Hp. unfold process_entry, bind, lift.
    rewrite Hp. cbn [get_default]. now rewrite Hd. }
  split; [exact Hd | split; [exact He|]].
  intros entry rest results st Hp. cbn [process_entries]. unfold bind.
  now rewrite He.
Qed.

(** *** The loop body *)

Lemma process_entry_skips
    (entry : Entry) (results : list row) (st : state World) (date_str : pystr) :
  parse_date strptime_ymd (get_default (entry_published entry) []) = Ok date_str ->
  clean_title self (get_default (entry_title entry) []) = None ->
  entry_step entry results st = (Ok results, st).
Proof.
  intros Hd Ht. unfold process_entry, bind, lift. now rewrite Hd, Ht.
Qed.

(** The record of an entry whose title parses: what the search returned
    and, when it returned a link, what the conversion returned. *)
Lemma process_entry_records
    (entry : Entry) (results : list row) (st : state World)
    (date_str artist album : pystr) :
  parse_date strptime_ymd (get_default (entry_published entry) []) = Ok date_str ->
  clean_title self (get_default (entry_title entry) []) = Some (artist, album) ->
  exists apple_url album_link st1 st2,
    search artist album st = (Ok apple_url, st1)
    /\ (apple_url = None -> album_link = None /\ st2 = st1)
    /\ (forall u, apple_url = Some u -> convert u st1 = (Ok album_link, st2))
    /\ entry_step entry results st =
         (Ok (results ++ [(artist, album, or_empty album_link,
                           or_empty apple_url, date_str)]), st2).
Proof.
  intros Hd Ht. unfold process_entry, bind, lift. rewrite Hd, Ht.
  destruct (search_apple_music_runs artist album st) as [apple [Hs Hu]].
  rewrite Hs. destruct apple as [u|].
  - cbn [truthy_opt or_empty]. rewrite (Hu u eq_refl).
    destruct (convert_runs u
      {| world := snd (catalog_get (search_request artist album) (world st));
         trace := trace st ++ [CatalogGet (search_request artist album)] |})
      as [link Hc].
    rewrite Hc. cbn [ret].
    eexists (Some u), link, _, _. split; [reflexivity|].
    split; [discriminate|]. split; [|reflexivity].
    intros u' E. inversion E; subst. exact Hc.
  - cbn [truthy_opt ret or_empty].
    eexists None, None, _, _. split; [reflexivity|].
    split; [auto|]. split; [discriminate | reflexivity].
Qed.


(** *** The loop *)

Lemma process_entry_cases (entry : Entry) (results : list row) (st : state World) :
  match entry_step entry results st with
  | (Ok results', _) => map row_key results' = map row_key results ++ parsed entry
  | (Raise _, _) => raises entry
  end.
Proof.
  unfold date_raises, parsed_entry.
  destruct (parse_date strptime_ymd (get_default (entry_published entry) []))
    as [d|[]] eqn:Hd.
  - destruct (clean_title self (get_default (entry_title entry) []))
      as [[a b]|] eqn:Ht.
    + destruct (process_entry_records entry results st d a b Hd Ht)
        as (apple & link & st1 & st2 & _ & _ & _ & ->).
      now rewrite map_app.
    + rewrite (process_entry_skips entry results st d Hd Ht).
      now rewrite app_nil_r.
  - unfold process_entry, bind, lift. now rewrite Hd.
Qed.

Lemma process_entries_cases (entries : list Entry) :
  forall results st,
    match entries_loop entries results st with
    | (Ok results', _) =>
        map row_key results' = map row_key results ++ flat_map parsed entries
    | (Raise _, _) => Exists raises entries
    end.
Proof.
  induction entries as [|entry rest IH]; intros results st.
  - cbn. now rewrite app_nil_r.
  - cbn [process_entries]. unfold bind.
    pose proof (process_entry_cases entry results st) as H1.
    destruct (entry_step entry results st) as [[results1|e] st1].
    + specialize (IH results1 st1).
      destruct (entries_loop rest results1 st1) as [[results2|e] st2].
      * rewrite IH, H1. cbn [flat_map]. now rewrite app_assoc.
      * now apply Exists_cons_tl.
    + now apply Exists_cons_hd.
Qed.

(** C8.  The records [process_feed] returns are in the order of the
    entries of the feed: their artists, albums and dates are those of the
    entries whose title parses, one record for each, in the order the
    feed gave them.  When [process_feed] returns no list, the date block
    has raised on an entry. *)
Theorem process_feed_preserves_order (st : state World) :
  let entries :=
    match fetch_rss feedparser_parse self st with
    | (Ok entries, _) => entries
    | (Raise _, _) => []
    end in
  match process_feed feedparser_parse catalog_get links_get quote strptime_ymd self st with
  | (Ok results, _) => map row_key results = flat_map parsed entries
  | (Raise _, _) => Exists raises entries
  end.
Proof.
  unfold process_feed. unfold bind at 1.
  destruct (fetch_rss feedparser_parse self st) as [[entries|e] st0] eqn:Hf.
  - cbn zeta. apply (process_entries_cases entries [] st0).
  - exfalso. unfold fetch_rss, bind, request in Hf.
    destruct (feedparser_parse (RSS_URL self) (world st)) as [[es|] w];
      discriminate.
Qed.

End Run.

(** *** The pipeline on the small world *)

Lemma demo_strptime_needs_comma (s : pystr) :
  ~ In COMMA s -> Demo.strptime_ymd s = None.
Proof.
  intros Hn. destruct s as [|w1 [|w2 [|w3 [|c rest]]]]; try reflexivity.
  unfold Demo.strptime_ymd. destruct (N.eqb_spec c COMMA) as [->|Hne].
  - exfalso. apply Hn. simpl. tauto.
  - reflexivity.
Qed.

Lemma search_album_link_short_circuit_witness :
  let found := search_apple_music Demo.catalog_get (py "Artist A") (py "Album One")
                 Demo.fetched in
  fst found = Ok None
  /\ search_album_link Demo.catalog_get Demo.links_get Demo.quote
       (py "Artist A") (py "Album One") Demo.fetched = (Ok None, snd found)
  /\ conversion_calls (trace (snd found)) = 0%nat.
Proof.
  cbv zeta.
  assert (Hs : search_apple_music Demo.catalog_get (py "Artist A") (py "Album One")
                 Demo.fetched
               = (Ok None,
                  snd (search_apple_music Demo.catalog_get (py "Artist A")
                         (py "Album One") Demo.fetched)))
    by (vm_compute; reflexivity).
  destruct (search_album_link_short_circuit Demo.catalog_get Demo.links_get Demo.quote
              (py "Artist A") (py "Album One") Demo.fetched _ Hs) as (H1 & _ & H3).
  split; [vm_compute; reflexivity | split; [exact H1 | exact H3]].
Defined.

Lemma convert_removes_country_code_witness :
  fst (convert_url_to_album_link Demo.links_get Demo.quote Demo.APPLE_URL Demo.fetched)
    = Ok (Some (remove_country_code (py "https://album.link/us/i/id123")))
  /\ remove_country_code (py "https://album.link/us/i/id123")
     = py "https://album.link" ++ py "/i/" ++ py "id123"
  /\ country_free (py "https://album.link/i/id123").
Proof.
  assert (Hc : country_free (py "https://album.link" ++ py "/i/" ++ py "id123"))
    by (vm_compute; auto).
  destruct (convert_removes_country_code Demo.links_get Demo.quote Demo.APPLE_URL
              (py "https://album.link/us/i/id123") Demo.fetched 2%nat)
    as (H1 & H2 & _).
  - vm_compute. reflexivity.
  - discriminate.
  - split; [exact H1 | split; [| exact Hc]].
    apply (H2 (py "us") (py "https://album.link") (py "id123"));
      [simpl; auto | vm_compute; reflexivity | exact Hc].
Defined.

Lemma parse_date_raises_without_comma_witness :
  ~ In COMMA (py "2025-11-02T10:00:00Z")
  /\ parse_date Demo.strptime_ymd (py "2025-11-02T10:00:00Z") = Raise IndexError
  /\ fst (process_feed Demo.atom_parse Demo.catalog_get Demo.links_get Demo.quote
            Demo.strptime_ymd album_fetcher Demo.start) = Raise IndexError.
Proof.
  assert (Hn : ~ In COMMA (py "2025-11-02T10:00:00Z"))
    by (vm_compute; intuition discriminate).
  split; [exact Hn | split].
  - apply (parse_date_raises_without_comma Demo.catalog_get Demo.links_get Demo.quote
             Demo.strptime_ymd album_fetcher (py "2025-11-02T10:00:00Z")
             demo_strptime_needs_comma);
      [discriminate | exact Hn].
  - vm_compute. reflexivity.
Defined.


Lemma process_feed_preserves_order_witness :
  match process_feed Demo.feedparser_parse Demo.catalog_get Demo.links_get Demo.quote
          Demo.strptime_ymd album_fetcher Demo.start with
  | (Ok results, _) =>
      map row_key results
      = [ (py "Artist A", py "Album One", py "2025-11-02");
          (py "Artist B", py "Album Two", py "01 Nov 2025") ]
  | (Raise _, _) => False
  end.
Proof.
  pose proof (process_feed_preserves_order Demo.feedparser_parse Demo.catalog_get
                Demo.links_get Demo.quote Demo.strptime_ymd album_fetcher Demo.start)
    as H.
  vm_compute in H. vm_compute. exact H.
Defined.

(** The two entries of the feed that parse, processed from start to end:
    the first, which the catalogue does not know, has its record with empty
    links; the second has both links; the third entry has no record. *)
Example process_feed_demo :
  fst (process_feed Demo.feedparser_parse Demo.catalog_get Demo.links_get Demo.quote
         Demo.strptime_ymd album_fetcher Demo.start)
  = Ok [ (py "Artist A", py "Album One", [], [], py "2025-11-02");
         (py "Artist B", py "Album Two", py "https://album.link/i/id123",
          Demo.APPLE_URL, py "01 Nov 2025") ].
Proof. vm_compute. reflexivity. Qed.

End PipelineFacts.

(* ===================================================================== *)
(** ** The output generators *)
(* ===================================================================== *)

Module OutputFacts.
Import PyStr Pipeline Csv OutputGenerator StrFacts.
Local Open Scope N_scope.

(** *** Markdown *)

(** C5.  [generate_markdown] has no rendering without a link: a record whose
    two link fields are empty is written with the two labels as links with
    an empty target, [[[All]()]] and [[[Apple]()]]. *)
Theorem markdown_item_empty_links :
  (forall artist album date,
      markdown_item (artist, album, [], [], date)
      = py "- **" ++ artist ++ [32; EM_DASH; 32] ++ album
          ++ py "** [[All]()] [[Apple]()]"
          ++ (if truthy date then py " _" ++ date ++ py "_" else [])
          ++ [LF])
  /\ contains (py "[[All]()] [[Apple]()]")
       (generate_markdown [(py "A", py "B", [], [], [])]) = true.
Proof.
  split.
  - intros artist album date. unfold markdown_item.
    repeat (rewrite <- ?app_assoc; f_equal).
  - vm_compute. reflexivity.
Qed.

(** *** CSV *)




(** ** Reading back what the writer wrote *)




















End OutputFacts.

(* ===================================================================== *)
(** ** More about the string operations *)
(* ===================================================================== *)

Module StrMore.
Import PyStr Re StrFacts Observe.
Local Open Scope N_scope.

(** *** Trimming *)

Lemma lstrip_split (s : pystr) :
  exists w, s = w ++ lstrip s /\ forallb is_space w = true.
Proof.
  induction s as [|c s IH]; [exists []; auto|].
  cbn [lstrip]. destruct (is_space c) eqn:E.
  - destruct IH as (w & Hs & Hw). exists (c :: w). split.
    + cbn [app]. now f_equal.
    + cbn [forallb]. now rewrite E, Hw.
  - exists []. auto.
Qed.

Lemma lstrip_head (s : pystr) (c : N) (rest : pystr) :
  lstrip s = c :: rest -> is_space c = false.
Proof.
  induction s as [|x s IH]; cbn [lstrip]; [discriminate|].
  destruct (is_space x) eqn:E; [exact IH|].
  intros H. inversion H; subst. exact E.
Qed.

Lemma lstrip_fixed (s : pystr) (c : N) (rest : pystr) :
  s = c :: rest -> is_space c = false -> lstrip s = s.
Proof. intros -> H. cbn [lstrip]. now rewrite H. Qed.

Lemma lstrip_idem (s : pystr) : lstrip (lstrip s) = lstrip s.
Proof.
  destruct (lstrip s) as [|c rest] eqn:E; [reflexivity|].
  apply (lstrip_fixed (c :: rest) c rest eq_refl). eapply lstrip_head; eauto.
Qed.

Lemma lstrip_spaces (w s : pystr) :
  forallb is_space w = true -> lstrip (w ++ s) = lstrip s.
Proof.
  induction w as [|c w IH]; intros H; [reflexivity|].
  cbn [forallb] in H. apply andb_true_iff in H. destruct H as [Hc Hw].
  cbn [app lstrip]. rewrite Hc. auto.
Qed.

(** Leading whitespace is not seen from the right end. *)
Lemma lstrip_keeps_last (u : pystr) (x : N) :
  is_space x = false -> exists v, lstrip (u ++ [x]) = v ++ [x].
Proof.
  intros Hx. induction u as [|c u IH].
  - exists []. cbn. now rewrite Hx.
  - cbn [app lstrip]. destruct (is_space c); [exact IH|].
    exists (c :: u). reflexivity.
Qed.

Lemma rstrip_split (s : pystr) :
  exists w, s = rstrip s ++ w /\ forallb is_space w = true.
Proof.
  unfold rstrip. destruct (lstrip_split (rev s)) as (w & Hs & Hw).
  exists (rev w). split.
  - rewrite <- (rev_involutive s) at 1. rewrite Hs at 1. now rewrite rev_app_distr.
  - rewrite forallb_forall in *. intros x Hx. apply Hw. now apply in_rev.
Qed.

(** What [strip] returns starts and ends with a character that is not
    whitespace. *)
Lemma strip_ends (s : pystr) :
  strip s <> [] ->
  is_space (hd 32 (strip s)) = false /\ is_space (last (strip s) 32) = false.
Proof.
  unfold strip, rstrip. intros Hne.
  destruct (lstrip s) as [|c l] eqn:El; [now cbn in Hne|].
  pose proof (lstrip_head s c l El) as Hc.
  assert (Hr : rev (c :: l) = rev l ++ [c]) by reflexivity.
  rewrite Hr in *. clear Hr.
  destruct (lstrip_keeps_last (rev l) c Hc) as [v Hv].
  split.
  - rewrite Hv, rev_app_distr. exact Hc.
  - destruct (lstrip (rev l ++ [c])) as [|y t] eqn:E.
    + destruct v; discriminate.
    + cbn [rev]. rewrite last_last. eapply lstrip_head; eauto.
Qed.

Lemma strip_split (s : pystr) :
  exists w1 w2,
    s = w1 ++ strip s ++ w2
    /\ forallb is_space w1 = true /\ forallb is_space w2 = true.
Proof.
  destruct (lstrip_split s) as (w1 & H1 & Hw1).
  destruct (rstrip_split (lstrip s)) as (w2 & H2 & Hw2).
  exists w1, w2. unfold strip. rewrite <- H2. auto.
Qed.

Lemma strip_spaces_left (w s : pystr) :
  forallb is_space w = true -> strip (w ++ s) = strip s.
Proof. intros H. unfold strip. now rewrite lstrip_spaces. Qed.

Lemma strip_trimmed (s : pystr) : strip s <> [] -> trimmed (strip s).
Proof. intros H. split; [exact H | now apply strip_ends]. Qed.

Lemma lstrip_all_spaces (w : pystr) : forallb is_space w = true -> lstrip w = [].
Proof.
  intros H. rewrite <- (app_nil_r w). now rewrite lstrip_spaces.
Qed.

Lemma lstrip_app (s w : pystr) : lstrip s <> [] -> lstrip (s ++ w) = lstrip s ++ w.
Proof.
  induction s as [|c s IH]; cbn [lstrip app]; [congruence|].
  destruct (is_space c); auto.
Qed.

Lemma rstrip_spaces (s w : pystr) :
  forallb is_space w = true -> rstrip (s ++ w) = rstrip s.
Proof.
  intros H. unfold rstrip. rewrite rev_app_distr, lstrip_spaces; [reflexivity|].
  rewrite forallb_forall in *. intros x Hx. apply H. now apply in_rev.
Qed.

Lemma strip_spaces_right (s w : pystr) :
  forallb is_space w = true -> strip (s ++ w) = strip s.
Proof.
  intros H. unfold strip. destruct (lstrip s) as [|c l] eqn:E.
  - destruct (lstrip_split s) as (w1 & Hs & Hw1). rewrite E, app_nil_r in Hs. subst w1.
    rewrite lstrip_all_spaces; [reflexivity|].
    rewrite forallb_app. now rewrite Hw1, H.
  - rewrite lstrip_app by (rewrite E; discriminate). rewrite E.
    now apply rstrip_spaces.
Qed.

(** *** Replacing and splitting *)

Lemma replace_aux_nonempty (old new : pystr) (s : pystr) :
  new <> [] -> s <> [] -> replace_aux old new 0 s <> [].
Proof.
  intros Hn Hs. destruct s as [|c s]; [congruence|].
  cbn [replace_aux]. destruct (prefixb old (c :: s)); [|discriminate].
  destruct new; [congruence | discriminate].
Qed.

Lemma split_char_aux_nonempty (c : N) (s : pystr) :
  forall acc, split_char_aux c acc s <> [].
Proof.
  induction s as [|x s IH]; intros acc; cbn [split_char_aux]; [discriminate|].
  destruct (N.eqb x c); [discriminate | apply IH].
Qed.

(** A string with the separator splits in two parts at least. *)
Lemma split_char_aux_present (c : N) (s : pystr) :
  In c s -> forall acc, exists p0 p1 rest, split_char_aux c acc s = p0 :: p1 :: rest.
Proof.
  induction s as [|x s IH]; intros Hin acc; [destruct Hin|].
  cbn [split_char_aux]. destruct (N.eqb_spec x c) as [->|Hne].
  - destruct (split_char_aux c [] s) as [|p1 rest] eqn:E.
    + now apply split_char_aux_nonempty in E.
    + exists (rev acc), p1, rest. reflexivity.
  - destruct Hin as [Hin|Hin]; [congruence|]. apply IH. exact Hin.
Qed.

(** *** Patterns that end in [\s*$] *)

Lemma greedy_to_the_end (ok : N -> bool) (k : nat -> pystr -> option mres) :
  to_the_end k -> to_the_end (greedy ok k).
Proof.
  intros Hk pos s. revert pos. induction s as [|c s IH]; intros pos r; cbn [greedy].
  - apply Hk.
  - destruct (ok c); [|apply Hk].
    destruct (greedy ok k (S pos) s) as [r'|] eqn:E.
    + intros H. inversion H; subst. rewrite (IH _ _ E). cbn [List.length]. lia.
    + apply Hk.
Qed.

Lemma lazy_to_the_end (ok : N -> bool) (k : nat -> pystr -> option mres) :
  to_the_end k -> to_the_end (lazy ok k).
Proof.
  intros Hk pos s. revert pos. induction s as [|c s IH]; intros pos r; cbn [lazy].
  - destruct (k pos []) eqn:E; [|discriminate].
    intros H. inversion H; subst. now apply Hk.
  - destruct (k pos (c :: s)) eqn:E.
    + intros H. inversion H; subst. now apply Hk.
    + destruct (ok c); [|discriminate].
      intros H. rewrite (IH _ _ H). cbn [List.length]. lia.
Qed.

(** [\s*$] as the end of a pattern: the whitespace before a final newline
    includes the newline, so the match ends where the subject ends. *)
Lemma spaces_eol_to_the_end (marks : list nat) :
  to_the_end (greedy is_space (match_here [Eol] marks)).
Proof.
  intros pos s. revert pos. induction s as [|c s IH]; intros pos r; cbn [greedy].
  - cbn. intros H. inversion H; subst. cbn. lia.
  - destruct (is_space c) eqn:Ec.
    + destruct (greedy is_space (match_here [Eol] marks) (S pos) s) as [r'|] eqn:E.
      * intros H. inversion H; subst. rewrite (IH _ _ E). cbn [List.length]. lia.
      * cbn [match_here at_eol]. destruct s as [|d s]; [|discriminate].
        cbn in E. discriminate.
    + cbn [match_here at_eol]. destruct s as [|d s]; [|discriminate].
      destruct (N.eqb_spec c 10) as [->|]; [|discriminate].
      cbn in Ec. discriminate.
Qed.

Lemma match_here_to_the_end (p : regex) :
  forall marks, to_the_end (match_here (p ++ [Rep Star CSpace; Eol]) marks).
Proof.
  induction p as [|n p IH]; intros marks.
  - apply spaces_eol_to_the_end.
  - intros pos s r. cbn [app match_here]. destruct n as [[| | |] c | | | |].
    + destruct s as [|x s]; [discriminate|]. destruct (cmatch c x); [|discriminate].
      intros H. rewrite (IH _ _ _ _ H). cbn [List.length]. lia.
    + apply greedy_to_the_end, IH.
    + destruct s as [|x s]; [discriminate|]. destruct (cmatch c x); [|discriminate].
      intros H. rewrite (greedy_to_the_end _ _ (IH marks) _ _ _ H).
      cbn [List.length]. lia.
    + destruct s as [|x s]; [discriminate|]. destruct (cmatch c x); [|discriminate].
      intros H. rewrite (lazy_to_the_end _ _ (IH marks) _ _ _ H).
      cbn [List.length]. lia.
    + destruct (Nat.eqb pos 0); [apply IH | discriminate].
    + destruct (at_eol s); [apply IH | discriminate].
    + apply IH.
    + apply IH.
Qed.

Lemma sub_aux_skip_all (p : regex) (s : pystr) :
  forall skip pos, (List.length s <= skip)%nat -> sub_aux p skip pos s = [].
Proof.
  induction s as [|c s IH]; intros skip pos H; [reflexivity|].
  cbn [List.length] in H. destruct skip as [|n]; [lia|].
  cbn [sub_aux]. apply IH. lia.
Qed.

(** Removing what such a pattern matches cuts the subject at one place. *)
Lemma sub_aux_prefix (p : regex) (s : pystr) :
  to_the_end (match_here p []) ->
  forall pos, exists cut, s = sub_aux p 0 pos s ++ cut.
Proof.
  intros Hp. induction s as [|c s IH]; intros pos; [exists []; reflexivity|].
  cbn [sub_aux]. destruct (match_here p [] pos (c :: s)) as [[e m]|] eqn:E.
  - apply Hp in E. cbn [fst List.length] in E.
    replace (Nat.ltb pos e) with true by (symmetry; apply Nat.ltb_lt; lia).
    rewrite sub_aux_skip_all by lia. exists (c :: s). reflexivity.
  - destruct (IH (S pos)) as [cut Hc]. exists cut. cbn [app]. now f_equal.
Qed.

End StrMore.

(* ===================================================================== *)
(** ** More about the title strategies *)
(* ===================================================================== *)

Module TitleMore.
Import PyStr Re Titles StrFacts TitleFacts Observe StrMore.
Local Open Scope N_scope.

Lemma two_parts_trimmed (parts : list pystr) (artist album : pystr) :
  two_parts parts = Some (artist, album) -> trimmed artist /\ trimmed album.
Proof.
  destruct parts as [|a [|b [|c l]]]; try discriminate.
  intros H. apply two_parts_spec in H. destruct H as (-> & -> & Ha & Hb).
  split; now apply strip_trimmed.
Qed.

Lemma album_fetcher_pairs_trimmed (title artist album : pystr) :
  AlbumFetcher.clean_title title = Some (artist, album) ->
  trimmed artist /\ trimmed album.
Proof.
  intros H. unfold AlbumFetcher.clean_title in H.
  destruct (has_char COLON (AlbumFetcher.cleaned title)); [|discriminate].
  now apply two_parts_trimmed in H.
Qed.

Lemma jazz_profiles_pairs_trimmed (title artist album : pystr) :
  JazzProfilesFetcher.clean_title title = Some (artist, album) ->
  trimmed artist /\ trimmed album.
Proof.
  intros H. unfold JazzProfilesFetcher.clean_title in H.
  destruct (JazzProfilesFetcher.colon_block (JazzProfilesFetcher.cleaned title))
    as [p|] eqn:Ec.
  { inversion H; subst. unfold JazzProfilesFetcher.colon_block in Ec.
    destruct (has_char COLON _); [|discriminate]. now apply two_parts_trimmed in Ec. }
  destruct (JazzProfilesFetcher.hyphen_block (JazzProfilesFetcher.cleaned title))
    as [p|] eqn:Eh.
  { inversion H; subst. unfold JazzProfilesFetcher.hyphen_block in Eh.
    destruct (contains HYPHEN_SEP _); [|discriminate]. now apply two_parts_trimmed in Eh. }
  unfold JazzProfilesFetcher.by_block in H.
  destruct (contains (py " by ") _); [|discriminate].
  destruct (search _ _) as [m|]; [|discriminate].
  destruct (groups2 _ m) as [[g1 g2]|]; [|discriminate].
  destruct (truthy (strip g2)) eqn:E2; [|discriminate].
  destruct (truthy (strip g1)) eqn:E1; [|discriminate].
  cbn in H. inversion H; subst.
  apply truthy_nonempty in E1, E2. split; now apply strip_trimmed.
Qed.

(** X1.  Whatever the title, a pair returned by the [clean_title] of either
    fetcher has an artist and an album that are not empty and that neither
    start nor end with whitespace. *)
Theorem clean_title_pairs_trimmed (self : Fetcher) (title artist album : pystr) :
  self = album_fetcher \/ self = jazz_profiles_fetcher ->
  clean_title self title = Some (artist, album) ->
  trimmed artist /\ trimmed album.
Proof.
  intros [-> | ->] H.
  - now apply (album_fetcher_pairs_trimmed title).
  - now apply (jazz_profiles_pairs_trimmed title).
Qed.

Lemma clean_title_pairs_trimmed_witness :
  clean_title jazz_profiles_fetcher (py "  Midnight Blue   by  Kenny Burrell - album ")
    = Some (py "Kenny Burrell", py "Midnight Blue")
  /\ trimmed (py "Kenny Burrell") /\ trimmed (py "Midnight Blue").
Proof.
  assert (H : clean_title jazz_profiles_fetcher
                (py "  Midnight Blue   by  Kenny Burrell - album ")
              = Some (py "Kenny Burrell", py "Midnight Blue"))
    by (vm_compute; reflexivity).
  split; [exact H|].
  exact (clean_title_pairs_trimmed jazz_profiles_fetcher _ _ _ (or_intror eq_refl) H).
Defined.

Lemma remove_patterns_prefix (patterns : list regex) :
  trailing_patterns patterns ->
  forall title, exists cut, title = remove_patterns patterns title ++ cut.
Proof.
  unfold remove_patterns.
  induction patterns as [|p ps IH]; intros Hall title; [exists []; now rewrite app_nil_r|].
  inversion Hall as [|? ? [q Hq] Hps]; subst.
  cbn [fold_left].
  destruct (sub_aux_prefix (q ++ [Rep Star CSpace; Eol]) title
              (match_here_to_the_end q []) 0%nat) as [cut1 H1].
  destruct (IH Hps (sub_empty (q ++ [Rep Star CSpace; Eol]) title)) as [cut2 H2].
  exists (cut2 ++ cut1). rewrite app_assoc, <- H2. exact H1.
Qed.

Lemma album_fetcher_patterns : trailing_patterns AlbumFetcher.REMOVE_PATTERNS.
Proof.
  repeat constructor.
  - exists ([Rep Star CSpace] ++ lits "album review"). reflexivity.
  - exists ([Rep Star CSpace] ++ lits "concert review"). reflexivity.
  - exists ([Rep Star CSpace] ++ lits "premiere"). reflexivity.
  - exists ([Rep Star CSpace] ++ lits "review"). reflexivity.
Qed.

Lemma jazz_profiles_patterns : trailing_patterns JazzProfilesFetcher.REMOVE_PATTERNS.
Proof.
  repeat constructor.
  - exists ([Rep Star CSpace] ++ lits "album review"). reflexivity.
  - exists ([Rep Star CSpace] ++ lits "review"). reflexivity.
  - exists ([Rep Star CSpace; Rep One (CLit 45); Rep Star CSpace] ++ lits "album").
    reflexivity.
  - exists ([Rep Star CSpace] ++ lits "[album]"). reflexivity.
Qed.

(** X2.  For both fetchers the suffix removal only cuts the end of a title:
    the cleaned title is the trimmed form of a prefix of the raw title, so
    nothing before the cut is changed. *)
Theorem cleaned_is_trimmed_prefix (title : pystr) :
  (exists kept cut,
      title = kept ++ cut /\ AlbumFetcher.cleaned title = strip kept)
  /\ (exists kept cut,
      title = kept ++ cut /\ JazzProfilesFetcher.cleaned title = strip kept).
Proof.
  split.
  - destruct (remove_patterns_prefix _ album_fetcher_patterns title) as [cut H].
    exists (remove_patterns AlbumFetcher.REMOVE_PATTERNS title), cut. now split.
  - destruct (remove_patterns_prefix _ jazz_profiles_patterns title) as [cut H].
    exists (remove_patterns JazzProfilesFetcher.REMOVE_PATTERNS title), cut. now split.
Qed.

Lemma spaces_no_colon (w : pystr) : forallb is_space w = true -> ~ In COLON w.
Proof.
  intros H Hin. rewrite forallb_forall in H. specialize (H _ Hin). discriminate.
Qed.

(** X3.  When [AlbumFetcher.clean_title] returns a pair, the artist is the
    trimmed text before the first colon of the raw title, and the album is
    the trimmed form of a part of the title that starts right after that
    colon: the suffix removal never reaches the artist. *)
Theorem clean_title_artist_before_first_colon (title artist album : pystr) :
  AlbumFetcher.clean_title title = Some (artist, album) ->
  exists before kept cut,
    title = before ++ COLON :: kept ++ cut
    /\ ~ In COLON before
    /\ artist = strip before /\ album = strip kept.
Proof.
  intros H.
  assert (Hc : (if has_char COLON (AlbumFetcher.cleaned title)
                then two_parts (split1 [COLON] (AlbumFetcher.cleaned title))
                else None) = Some (artist, album)).
  { unfold AlbumFetcher.clean_title in H.
    destruct (has_char COLON (AlbumFetcher.cleaned title)); [exact H | discriminate]. }
  apply colon_rule_spec in Hc.
  destruct Hc as (bf & af & Hcl & Hn & Ha & Hb & _ & _).
  destruct (remove_patterns_prefix _ album_fetcher_patterns title) as [cut Hcut].
  unfold AlbumFetcher.cleaned in Hcl.
  destruct (strip_split (remove_patterns AlbumFetcher.REMOVE_PATTERNS title))
    as (w1 & w2 & Hs & Hw1 & Hw2).
  exists (w1 ++ bf), (af ++ w2), cut. repeat split.
  - rewrite Hcut at 1. rewrite Hs at 1. rewrite Hcl.
    repeat rewrite <- app_assoc. reflexivity.
  - intros Hin. apply in_app_or in Hin. destruct Hin as [Hin | Hin]; [|auto].
    now apply (spaces_no_colon w1 Hw1).
  - rewrite strip_spaces_left by exact Hw1. exact Ha.
  - rewrite strip_spaces_right by exact Hw2. exact Hb.
Qed.

Lemma clean_title_artist_before_first_colon_witness :
  AlbumFetcher.clean_title (py " Jane Monheit : Come What May  Concert Review ")
    = Some (py "Jane Monheit", py "Come What May")
  /\ exists before kept cut,
       py " Jane Monheit : Come What May  Concert Review "
         = before ++ COLON :: kept ++ cut
       /\ ~ In COLON before
       /\ py "Jane Monheit" = strip before /\ py "Come What May" = strip kept.
Proof.
  assert (H : AlbumFetcher.clean_title
                (py " Jane Monheit : Come What May  Concert Review ")
              = Some (py "Jane Monheit", py "Come What May"))
    by (vm_compute; reflexivity).
  split; [exact H|].
  exact (clean_title_artist_before_first_colon _ _ _ H).
Defined.

(** On a title that the two suffix lists clean to the same string,
    [JazzProfilesFetcher.clean_title] returns every pair
    [AlbumFetcher.clean_title] returns. *)
Theorem jazz_profiles_extends_album_fetcher (title artist album : pystr) :
  JazzProfilesFetcher.cleaned title = AlbumFetcher.cleaned title ->
  AlbumFetcher.clean_title title = Some (artist, album) ->
  JazzProfilesFetcher.clean_title title = Some (artist, album).
Proof.
  intros Hc H. unfold JazzProfilesFetcher.clean_title, JazzProfilesFetcher.colon_block.
  rewrite Hc. unfold AlbumFetcher.clean_title in H.
  destruct (has_char COLON (AlbumFetcher.cleaned title)); [|discriminate].
  cbn [negb] in H. now rewrite H.
Qed.

Lemma jazz_profiles_extends_album_fetcher_witness :
  JazzProfilesFetcher.cleaned (py "Jane Monheit: Come What May review")
    = AlbumFetcher.cleaned (py "Jane Monheit: Come What May review")
  /\ JazzProfilesFetcher.clean_title (py "Jane Monheit: Come What May review")
     = Some (py "Jane Monheit", py "Come What May").
Proof.
  assert (H : JazzProfilesFetcher.cleaned (py "Jane Monheit: Come What May review")
              = AlbumFetcher.cleaned (py "Jane Monheit: Come What May review"))
    by (vm_compute; reflexivity).
  split; [exact H|].
  apply (jazz_profiles_extends_album_fetcher _ _ _ H). vm_compute. reflexivity.
Defined.

End TitleMore.

(* ===================================================================== *)
(** ** More about the pipeline *)
(* ===================================================================== *)

Module PipelineMore.
Import PyStr Re Titles Pipeline StrFacts TitleFacts PipelineFacts Observe StrMore TitleMore.
Local Open Scope N_scope.

(** *** Traces *)

Lemma throttled_from_weaken (t : list event) :
  throttled_from false t = true -> forall b, throttled_from b t = true.
Proof. destruct t as [|[]]; cbn; auto. discriminate. Qed.

Lemma throttled_from_app (t1 t2 : list event) :
  forall b, throttled_from b t1 = true -> throttled_from false t2 = true ->
            throttled_from b (t1 ++ t2) = true.
Proof.
  induction t1 as [|e t1 IH]; intros b H1 H2.
  - now apply throttled_from_weaken.
  - destruct e; cbn in *; auto.
    apply andb_true_iff in H1. destruct H1 as [-> H1]. cbn. auto.
Qed.

Lemma throttled_record_events (quote : pystr -> pystr) (rows : list row) :
  throttled (flat_map (record_events quote) rows) = true.
Proof.
  unfold throttled. induction rows as [|r rows IH]; [reflexivity|].
  cbn [flat_map]. apply throttled_from_app; [|exact IH].
  unfold record_events. destruct (truthy (row_apple_link r)); reflexivity.
Qed.

Lemma seconds_slept_app (t1 t2 : list event) :
  seconds_slept (t1 ++ t2) = seconds_slept t1 + seconds_slept t2.
Proof.
  induction t1 as [|e t1 IH]; [reflexivity|].
  destruct e; cbn; rewrite ?IH; lia.
Qed.

Lemma remove_country_code_nonempty (page_url : pystr) :
  page_url <> [] -> remove_country_code page_url <> [].
Proof.
  intros H. unfold remove_country_code, replace.
  repeat apply replace_aux_nonempty; try discriminate. exact H.
Qed.

Section Run.

Context {World : Type}.
Variable feedparser_parse : pystr -> World -> option (list Entry) * World.
Variable catalog_get : search_params -> World -> option (list (option pystr)) * World.
Variable links_get : pystr -> World -> option (option pystr) * World.
Variable quote : pystr -> pystr.
Variable strptime_ymd : pystr -> option pystr.
Variable self : Fetcher.

Local Abbreviation search := (search_apple_music catalog_get).
Local Abbreviation convert := (convert_url_to_album_link links_get quote).
Local Abbreviation resolve := (search_album_link catalog_get links_get quote).
Local Abbreviation entry_step := (process_entry catalog_get links_get quote strptime_ymd self).
Local Abbreviation entries_loop := (process_entries catalog_get links_get quote strptime_ymd self).
Local Abbreviation feed := (process_feed feedparser_parse catalog_get links_get quote strptime_ymd self).
Local Abbreviation api := (api_url quote).
Local Abbreviation events := (record_events quote).
Local Abbreviation raises := (date_raises strptime_ymd).
Local Abbreviation fetched := (fetched_entries feedparser_parse self).

(** *** The date block *)

(** X7.  The date block raises exactly on the dates that are not empty,
    that the library call rejects and that have no comma; on every other
    date it returns a string. *)
Theorem parse_date_raises_iff (pub_date : pystr) :
  parse_date strptime_ymd pub_date = Raise IndexError <->
  pub_date <> [] /\ strptime_ymd pub_date = None /\ ~ In COMMA pub_date.
Proof.
  unfold parse_date. split.
  - destruct (truthy pub_date) eqn:Et; [|discriminate].
    apply truthy_nonempty in Et.
    destruct (strptime_ymd pub_date); [discriminate|].
    intros H. split; [exact Et | split; [reflexivity|]].
    intros Hin. destruct (split_char_aux_present COMMA pub_date Hin [])
      as (p0 & p1 & rest & Hs).
    unfold split_char in H. rewrite Hs in H. discriminate.
  - intros (Hne & Hp & Hn). apply truthy_nonempty in Hne. rewrite Hne, Hp.
    unfold split_char. now rewrite split_char_aux_absent.
Qed.

(** *** The two lookups *)

(** What the conversion returns, by the answer of the service. *)
Lemma convert_result (music_url : pystr) (st : state World) :
  fst (convert music_url st) =
  Ok match fst (links_get (api music_url) (world st)) with
     | Some (Some page_url) =>
         if truthy page_url then Some (remove_country_code page_url) else None
     | _ => None
     end.
Proof.
  unfold convert_url_to_album_link, bind, request, sleep.
  fold (api music_url). cbn [world trace].
  destruct (links_get (api music_url) (world st)) as [[[u|]|] w]; cbn [fst];
    try reflexivity.
  destruct (truthy u); reflexivity.
Qed.

Lemma convert_some_nonempty (music_url link : pystr) (st : state World) :
  fst (convert music_url st) = Ok (Some link) -> link <> [].
Proof.
  rewrite convert_result.
  destruct (fst (links_get (api music_url) (world st))) as [[u|]|]; try discriminate.
  destruct (truthy u) eqn:Eu; [|discriminate].
  intros H. inversion H; subst. apply truthy_nonempty in Eu.
  now apply remove_country_code_nonempty.
Qed.


(** X8.  A link [convert_url_to_album_link] returns is never empty: it is
    the non-empty [pageUrl] of the answer with the country segments
    replaced, and the replacements leave no empty string. *)
Theorem convert_link_never_empty (music_url link : pystr) (st : state World) :
  fst (convert music_url st) = Ok (Some link) ->
  link <> []
  /\ exists page_url,
       fst (links_get (api music_url) (world st)) = Some (Some page_url)
       /\ page_url <> [] /\ link = remove_country_code page_url.
Proof.
  rewrite convert_result.
  destruct (fst (links_get (api music_url) (world st))) as [[u|]|]; try discriminate.
  destruct (truthy u) eqn:Eu; [|discriminate].
  intros H. inversion H; subst. apply truthy_nonempty in Eu.
  split; [now apply remove_country_code_nonempty|].
  exists u. auto.
Qed.


(** X10.  For an entry whose date block has returned and whose title
    parses, the loop body of [process_feed] resolves the album as
    [search_album_link] does: it ends in the same state, the universal
    link of its record is the link [search_album_link] returns (empty when
    it returns none), and a record with a universal link keeps the
    catalogue link. *)
Theorem process_entry_resolves_like_search_album_link
    (entry : Entry) (results : list row) (st : state World)
    (date_str artist album : pystr) :
  parse_date strptime_ymd (get_default (entry_published entry) []) = Ok date_str ->
  clean_title self (get_default (entry_title entry) []) = Some (artist, album) ->
  exists link apple_link,
    resolve artist album st = (Ok link, snd (entry_step entry results st))
    /\ fst (entry_step entry results st)
       = Ok (results ++ [(artist, album, or_empty link, apple_link, date_str)])
    /\ (link <> None -> apple_link <> []).
Proof.
  intros Hd Ht.
  destruct (process_entry_records catalog_get links_get quote strptime_ymd self
              entry results st date_str artist album Hd Ht)
    as (apple & l & st1 & st2 & Hs & Hnone & Hsome & ->).
  cbn [fst snd]. unfold search_album_link, bind. rewrite Hs.
  destruct (search_apple_music_runs catalog_get artist album st) as [r [Hr Hu]].
  rewrite Hr in Hs. inversion Hs; subst. clear Hs.
  destruct apple as [u|].
  - cbn [truthy_opt or_empty]. rewrite (Hu u eq_refl), (Hsome u eq_refl).
    pose proof (Hu u eq_refl) as Hun. apply truthy_nonempty in Hun.
    destruct l as [l|].
    + assert (Hne : l <> []).
      { apply (convert_some_nonempty u l
                 {| world := snd (catalog_get (search_request artist album) (world st));
                    trace := trace st ++ [CatalogGet (search_request artist album)] |}).
        now rewrite (Hsome u eq_refl). }
      cbn [truthy_opt]. apply truthy_nonempty in Hne. rewrite Hne. cbn [ret].
      exists (Some l), u. auto.
    + cbn [truthy_opt ret]. exists None, u. auto.
  - destruct (Hnone eq_refl) as [-> ->]. cbn [truthy_opt ret or_empty].
    exists None, []. repeat split; congruence.
Qed.

(** *** The trace of a run *)

(** What one run of the loop body adds to the results and to the trace. *)
Lemma process_entry_trace (entry : Entry) (results : list row) (st : state World) :
  match entry_step entry results st with
  | (Ok results', st') =>
      exists new, results' = results ++ new
                  /\ trace st' = trace st ++ flat_map events new
  | (Raise _, st') => st' = st
  end.
Proof.
  destruct (parse_date strptime_ymd (get_default (entry_published entry) []))
    as [d|e] eqn:Hd.
  - destruct (clean_title self (get_default (entry_title entry) []))
      as [[artist album]|] eqn:Ht.
    + destruct (process_entry_records catalog_get links_get quote strptime_ymd self
                  entry results st d artist album Hd Ht)
        as (apple & link & st1 & st2 & Hs & Hnone & Hsome & ->).
      exists [(artist, album, or_empty link, or_empty apple, d)].
      split; [reflexivity|]. cbn [flat_map]. rewrite app_nil_r.
      unfold record_events. cbn [row_artist row_album row_apple_link].
      destruct (search_apple_music_runs catalog_get artist album st) as [r [Hr Hu]].
      rewrite Hr in Hs. inversion Hs; subst. clear Hs.
      destruct apple as [u|].
      * cbn [or_empty]. rewrite (Hu u eq_refl).
        specialize (Hsome u eq_refl).
        destruct (convert_runs links_get quote u
                    {| world := snd (catalog_get (search_request artist album) (world st));
                       trace := trace st ++ [CatalogGet (search_request artist album)] |})
          as [l Hl].
        rewrite Hl in Hsome. inversion Hsome; subst. cbn [trace].
        repeat rewrite <- app_assoc. reflexivity.
      * destruct (Hnone eq_refl) as [_ ->]. reflexivity.
    + rewrite (process_entry_skips catalog_get links_get quote strptime_ymd self
                 entry results st d Hd Ht).
      exists []. rewrite !app_nil_r. auto.
  - unfold process_entry, bind, lift. now rewrite Hd.
Qed.

(** The same for the loop; when the date block raises, the trace is that of
    the records appended before. *)
Lemma process_entries_trace (entries : list Entry) :
  forall results st,
    exists new,
      trace (snd (entries_loop entries results st)) = trace st ++ flat_map events new
      /\ match fst (entries_loop entries results st) with
         | Ok results' => results' = results ++ new
         | Raise _ => True
         end.
Proof.
  induction entries as [|entry rest IH]; intros results st.
  - exists []. cbn. rewrite !app_nil_r. auto.
  - cbn [process_entries]. unfold bind.
    pose proof (process_entry_trace entry results st) as H1.
    destruct (entry_step entry results st) as [[results1|e] st1].
    + destruct H1 as (new1 & -> & Ht1).
      destruct (IH (results ++ new1) st1) as (new2 & Ht2 & Hr2).
      exists (new1 ++ new2). split.
      * rewrite Ht2, Ht1, flat_map_app. now rewrite app_assoc.
      * destruct (fst (entries_loop rest (results ++ new1) st1)); [|exact I].
        now rewrite Hr2, app_assoc.
    + subst st1. exists []. cbn. rewrite app_nil_r. auto.
Qed.

Lemma fetch_rss_trace (st : state World) :
  exists entries,
    fetch_rss feedparser_parse self st =
      (Ok entries,
       {| world := snd (feedparser_parse (RSS_URL self) (world st));
          trace := trace st ++ [FeedParse (RSS_URL self)] |})
    /\ (fst (feedparser_parse (RSS_URL self) (world st)) = None -> entries = []).
Proof.
  unfold fetch_rss, bind, request.
  destruct (feedparser_parse (RSS_URL self) (world st)) as [[es|] w]; cbn.
  - exists es. split; [reflexivity | discriminate].
  - exists []. split; reflexivity.
Qed.

(** What a run of [process_feed] adds to the trace, whether it returns or
    raises. *)
Lemma process_feed_trace (st : state World) :
  exists new,
    trace (snd (feed st))
      = trace st ++ FeedParse (RSS_URL self) :: flat_map events new
    /\ match fst (feed st) with
       | Ok results => results = new
       | Raise _ => True
       end.
Proof.
  unfold process_feed. unfold bind at 1 2.
  destruct (fetch_rss_trace st) as (entries & -> & _).
  destruct (process_entries_trace entries []
              {| world := snd (feedparser_parse (RSS_URL self) (world st));
                 trace := trace st ++ [FeedParse (RSS_URL self)] |})
    as (new & Ht & Hr).
  exists new. split.
  - rewrite Ht. cbn [trace]. now rewrite <- app_assoc.
  - exact Hr.
Qed.

(** X4.  When [process_feed] returns, the requests it made are those of its
    records, in their order: the fetch of the feed, then for each record
    its search and, when the search found a link, a pause of six seconds
    and the conversion of that link. *)
Theorem process_feed_trace_of_records (st st' : state World) (results : list row) :
  feed st = (Ok results, st') ->
  trace st' = trace st ++ FeedParse (RSS_URL self) :: flat_map events results.
Proof.
  intros H. destruct (process_feed_trace st) as (new & Ht & Hr).
  rewrite H in Ht, Hr. cbn [fst snd] in Ht, Hr. now subst new.
Qed.

(** X5.  The pause before a conversion is kept through a whole run, whether
    it returns or raises: if every conversion request of the trace came
    right after a pause of six seconds before, so it is after. *)
Theorem process_feed_throttled (st : state World) :
  throttled (trace st) = true ->
  throttled (trace (snd (feed st))) = true.
Proof.
  intros Hst. destruct (process_feed_trace st) as (new & -> & _).
  unfold throttled in *.
  apply throttled_from_app; [exact Hst|].
  apply (throttled_record_events quote new).
Qed.

Lemma counts_record_events (rows : list row) :
  catalog_calls (flat_map events rows) = List.length rows
  /\ conversion_calls (flat_map events rows) = found_in_catalog rows
  /\ seconds_slept (flat_map events rows) = 6 * N.of_nat (found_in_catalog rows).
Proof.
  induction rows as [|r rows (IH1 & IH2 & IH3)]; [repeat split; reflexivity|].
  assert (H1 : catalog_calls (events r) = 1%nat)
    by (unfold record_events; destruct (truthy (row_apple_link r)); reflexivity).
  assert (H2 : conversion_calls (events r)
               = if truthy (row_apple_link r) then 1%nat else 0%nat)
    by (unfold record_events; destruct (truthy (row_apple_link r)); reflexivity).
  assert (H3 : seconds_slept (events r) = if truthy (row_apple_link r) then 6 else 0)
    by (unfold record_events; destruct (truthy (row_apple_link r)); reflexivity).
  cbn [flat_map]. unfold catalog_calls, found_in_catalog in *.
  rewrite filter_app, length_app, conversion_calls_app, seconds_slept_app.
  rewrite IH1, IH2, IH3, H1, H2, H3. cbn [filter].
  destruct (truthy (row_apple_link r)).
  - cbn [List.length]. rewrite Nat2N.inj_succ. repeat split; lia.
  - repeat split; lia.
Qed.

(** X6.  When [process_feed] returns, it has made one catalogue request for
    each record, one conversion request for each record whose search found
    a link, and has slept six seconds for each of these. *)
Theorem process_feed_request_counts (st st' : state World) (results : list row) :
  feed st = (Ok results, st') ->
  catalog_calls (trace st') = (catalog_calls (trace st) + List.length results)%nat
  /\ conversion_calls (trace st')
     = (conversion_calls (trace st) + found_in_catalog results)%nat
  /\ seconds_slept (trace st')
     = seconds_slept (trace st) + 6 * N.of_nat (found_in_catalog results).
Proof.
  intros H. destruct (process_feed_trace st) as (new & Ht & Hr).
  rewrite H in Ht, Hr. cbn [fst snd] in Ht, Hr. subst new. rewrite Ht.
  change (FeedParse (RSS_URL self) :: flat_map events results)
    with ([FeedParse (RSS_URL self)] ++ flat_map events results).
  unfold catalog_calls.
  rewrite !filter_app, !length_app, !conversion_calls_app, !seconds_slept_app.
  destruct (counts_record_events results) as (H1 & H2 & H3).
  unfold catalog_calls in H1. rewrite H1, H2, H3.
  change (List.length (filter is_catalog_get [FeedParse (RSS_URL self)])) with 0%nat.
  change (conversion_calls [FeedParse (RSS_URL self)]) with 0%nat.
  change (seconds_slept [FeedParse (RSS_URL self)]) with 0.
  repeat split; lia.
Qed.

(** X11.  When the feed cannot be parsed, or has no entry, [process_feed]
    returns the empty list and has made no request but the fetch. *)
Theorem process_feed_without_entries (st : state World) :
  fst (feedparser_parse (RSS_URL self) (world st)) = None
  \/ fst (feedparser_parse (RSS_URL self) (world st)) = Some [] ->
  feed st = (Ok [],
             {| world := snd (feedparser_parse (RSS_URL self) (world st));
                trace := trace st ++ [FeedParse (RSS_URL self)] |}).
Proof.
  intros H. unfold process_feed, fetch_rss, bind, request.
  destruct (feedparser_parse (RSS_URL self) (world st)) as [[es|] w]; cbn [fst snd] in *.
  - destruct H as [H|H]; [discriminate|]. inversion H; subst. reflexivity.
  - reflexivity.
Qed.

(** *** When a run fails *)

Lemma process_entries_raises (entries : list Entry) :
  Exists raises entries ->
  forall results st, exists st',
    entries_loop entries results st = (Raise IndexError, st').
Proof.
  induction entries as [|entry rest IH]; intros Hex results st.
  - inversion Hex.
  - cbn [process_entries]. unfold bind.
    pose proof (process_entry_cases catalog_get links_get quote strptime_ymd self
                  entry results st) as Hc.
    destruct (entry_step entry results st) as [[results1|[]] st1] eqn:E.
    + inversion Hex as [? ? Hr | ? ? Hr]; subst.
      * exfalso. unfold process_entry, bind, lift in E.
        unfold date_raises in Hr. rewrite Hr in E. discriminate.
      * apply IH. exact Hr.
    + eexists. reflexivity.
Qed.

Lemma process_feed_raises (st : state World) :
  Exists raises (fetched st) -> exists st', feed st = (Raise IndexError, st').
Proof.
  unfold process_feed, fetched_entries. unfold bind at 1.
  unfold fetch_rss, bind, request.
  destruct (feedparser_parse (RSS_URL self) (world st)) as [[entries|] w]; cbn [fst ret].
  - intros H. apply (process_entries_raises entries H).
  - intros H. inversion H.
Qed.


End Run.

(** *** The records of the two fetchers *)

Section Records.

Context {World : Type}.
Variable feedparser_parse : pystr -> World -> option (list Entry) * World.
Variable catalog_get : search_params -> World -> option (list (option pystr)) * World.
Variable links_get : pystr -> World -> option (option pystr) * World.
Variable quote : pystr -> pystr.
Variable strptime_ymd : pystr -> option pystr.
Variable self : Fetcher.

Local Abbreviation entry_step := (process_entry catalog_get links_get quote strptime_ymd self).
Local Abbreviation entries_loop := (process_entries catalog_get links_get quote strptime_ymd self).
Local Abbreviation feed := (process_feed feedparser_parse catalog_get links_get quote strptime_ymd self).

Hypothesis known_fetcher : self = album_fetcher \/ self = jazz_profiles_fetcher.

Lemma known_fetcher_pairs (title artist album : pystr) :
  clean_title self title = Some (artist, album) -> trimmed artist /\ trimmed album.
Proof.
  intros H. destruct known_fetcher as [E|E]; rewrite E in H.
  - now apply (album_fetcher_pairs_trimmed title).
  - now apply (jazz_profiles_pairs_trimmed title).
Qed.

Lemma process_entry_well_formed (entry : Entry) (results results' : list row)
      (st st' : state World) :
  Forall well_formed results ->
  entry_step entry results st = (Ok results', st') ->
  Forall well_formed results'.
Proof.
  intros Hall Hrun.
  destruct (parse_date strptime_ymd (get_default (entry_published entry) []))
    as [d|e] eqn:Hd.
  - destruct (clean_title self (get_default (entry_title entry) []))
      as [[artist album]|] eqn:Ht.
    + destruct (process_entry_records catalog_get links_get quote strptime_ymd self
                  entry results st d artist album Hd Ht)
        as (apple & link & st1 & st2 & Hs & Hnone & _ & Hr).
      rewrite Hrun in Hr. inversion Hr; subst.
      apply Forall_app. split; [exact Hall|]. constructor; [|constructor].
      destruct (known_fetcher_pairs _ _ _ Ht) as [Ha Hb].
      split; [exact Ha | split; [exact Hb|]].
      cbn [row_album_link row_apple_link]. intros Hne.
      destruct (search_apple_music_runs catalog_get artist album st) as [r [Hr' Hu]].
      rewrite Hr' in Hs. inversion Hs; subst.
      destruct apple as [u|].
      * cbn [or_empty]. apply truthy_nonempty. now apply Hu.
      * destruct (Hnone eq_refl) as [-> _]. now cbn in Hne.
    + rewrite (process_entry_skips catalog_get links_get quote strptime_ymd self
                 entry results st d Hd Ht) in Hrun.
      inversion Hrun; subst. exact Hall.
  - unfold process_entry, bind, lift in Hrun. rewrite Hd in Hrun. discriminate.
Qed.

Lemma process_entries_well_formed (entries : list Entry) :
  forall results results' st st',
    Forall well_formed results ->
    entries_loop entries results st = (Ok results', st') ->
    Forall well_formed results'.
Proof.
  induction entries as [|entry rest IH]; intros results results' st st' Hall Hrun.
  - cbn in Hrun. inversion Hrun; subst. exact Hall.
  - cbn [process_entries] in Hrun. unfold bind in Hrun.
    destruct (entry_step entry results st) as [[results1|e] st1] eqn:E; [|discriminate].
    eapply IH; [|exact Hrun]. eapply process_entry_well_formed; eauto.
Qed.

(** X12.  Every record [process_feed] returns for one of the two fetchers
    has an artist and an album that are not empty and are trimmed, and
    has a catalogue link whenever it has a universal link. *)
Theorem process_feed_records_well_formed (st st' : state World) (results : list row) :
  feed st = (Ok results, st') -> Forall well_formed results.
Proof.
  unfold process_feed. unfold bind at 1.
  destruct (fetch_rss feedparser_parse self st) as [[entries|e] st0]; [|discriminate].
  apply process_entries_well_formed. constructor.
Qed.

End Records.

(** *** The runs of the small world *)

(** The run of the All About Jazz fetcher on the small world. *)
Definition demo_run : result (list row) * state Demo.World :=
  process_feed Demo.feedparser_parse Demo.catalog_get Demo.links_get Demo.quote
    Demo.strptime_ymd album_fetcher Demo.start.

Definition demo_results : list row :=
  match fst demo_run with Ok results => results | Raise _ => [] end.

Lemma demo_run_returns : demo_run = (Ok demo_results, snd demo_run).
Proof. vm_compute. reflexivity. Qed.

Lemma process_feed_trace_of_records_witness :
  trace (snd demo_run)
  = trace Demo.start
      ++ FeedParse (RSS_URL album_fetcher)
         :: flat_map (record_events Demo.quote) demo_results.
Proof.
  exact (process_feed_trace_of_records Demo.feedparser_parse Demo.catalog_get
           Demo.links_get Demo.quote Demo.strptime_ymd album_fetcher
           Demo.start (snd demo_run) demo_results demo_run_returns).
Defined.

Lemma process_feed_throttled_witness :
  throttled (trace Demo.start) = true
  /\ throttled (trace (snd demo_run)) = true
  /\ conversion_calls (trace (snd demo_run)) = 1%nat.
Proof.
  split; [reflexivity | split; [|vm_compute; reflexivity]].
  exact (process_feed_throttled Demo.feedparser_parse Demo.catalog_get Demo.links_get
           Demo.quote Demo.strptime_ymd album_fetcher Demo.start eq_refl).
Defined.

Lemma process_feed_request_counts_witness :
  List.length demo_results = 2%nat /\ found_in_catalog demo_results = 1%nat
  /\ catalog_calls (trace (snd demo_run))
     = (catalog_calls (trace Demo.start) + List.length demo_results)%nat
  /\ conversion_calls (trace (snd demo_run))
     = (conversion_calls (trace Demo.start) + found_in_catalog demo_results)%nat
  /\ seconds_slept (trace (snd demo_run))
     = seconds_slept (trace Demo.start) + 6 * N.of_nat (found_in_catalog demo_results).
Proof.
  split; [vm_compute; reflexivity | split; [vm_compute; reflexivity|]].
  exact (process_feed_request_counts Demo.feedparser_parse Demo.catalog_get
           Demo.links_get Demo.quote Demo.strptime_ymd album_fetcher
           Demo.start (snd demo_run) demo_results demo_run_returns).
Defined.

Lemma convert_link_never_empty_witness :
  fst (convert_url_to_album_link Demo.links_get Demo.quote Demo.APPLE_URL Demo.fetched)
    = Ok (Some (py "https://album.link/i/id123"))
  /\ py "https://album.link/i/id123" <> [].
Proof.
  assert (H : fst (convert_url_to_album_link Demo.links_get Demo.quote Demo.APPLE_URL
                     Demo.fetched)
              = Ok (Some (py "https://album.link/i/id123")))
    by (vm_compute; reflexivity).
  split; [exact H|].
  exact (proj1 (convert_link_never_empty Demo.links_get Demo.quote Demo.APPLE_URL
                  (py "https://album.link/i/id123") Demo.fetched H)).
Defined.

Lemma process_entry_resolves_like_search_album_link_witness :
  exists link apple_link,
    search_album_link Demo.catalog_get Demo.links_get Demo.quote
      (py "Artist B") (py "Album Two") Demo.fetched
    = (Ok link,
       snd (process_entry Demo.catalog_get Demo.links_get Demo.quote Demo.strptime_ymd
              album_fetcher (nth 1 Demo.FEED (Build_Entry None None)) [] Demo.fetched))
    /\ fst (process_entry Demo.catalog_get Demo.links_get Demo.quote Demo.strptime_ymd
              album_fetcher (nth 1 Demo.FEED (Build_Entry None None)) [] Demo.fetched)
       = Ok ([] ++ [(py "Artist B", py "Album Two", or_empty link, apple_link,
                     py "01 Nov 2025")])
    /\ (link <> None -> apple_link <> []).
Proof.
  apply (process_entry_resolves_like_search_album_link Demo.catalog_get Demo.links_get
           Demo.quote Demo.strptime_ymd album_fetcher
           (nth 1 Demo.FEED (Build_Entry None None)) [] Demo.fetched);
    vm_compute; reflexivity.
Defined.

Lemma process_feed_without_entries_witness :
  process_feed Demo2.no_feed Demo.catalog_get Demo.links_get Demo.quote
    Demo.strptime_ymd jazz_profiles_fetcher Demo.start
  = (Ok [], {| world := 1%nat; trace := [FeedParse JazzProfilesFetcher.RSS_URL] |}).
Proof.
  exact (process_feed_without_entries Demo2.no_feed Demo.catalog_get Demo.links_get
           Demo.quote Demo.strptime_ymd jazz_profiles_fetcher Demo.start
           (or_introl eq_refl)).
Defined.

Lemma process_feed_records_well_formed_witness :
  List.length demo_results = 2%nat /\ Forall well_formed demo_results.
Proof.
  split; [vm_compute; reflexivity|].
  exact (process_feed_records_well_formed Demo.feedparser_parse Demo.catalog_get
           Demo.links_get Demo.quote Demo.strptime_ymd album_fetcher
           (or_introl eq_refl) Demo.start (snd demo_run) demo_results demo_run_returns).
Defined.

End PipelineMore.

(* ===================================================================== *)
(** ** The entry point and the sample script *)
(* ===================================================================== *)

Module MainFacts.
Import PyStr Re Titles Pipeline Csv OutputGenerator.
Import StrFacts TitleFacts PipelineFacts Observe StrMore TitleMore PipelineMore.
Local Open Scope N_scope.

Section Run.

Context {World : Type}.
Variable feedparser_parse : pystr -> World -> option (list Entry) * World.
Variable catalog_get : search_params -> World -> option (list (option pystr)) * World.
Variable links_get : pystr -> World -> option (option pystr) * World.
Variable quote : pystr -> pystr.
Variable strptime_ymd : pystr -> option pystr.
Variable write_file : pystr -> pystr -> World -> bool * World.
Variable html_content : list row -> option (list row) -> World -> pystr * World.

Local Abbreviation feed self := (process_feed feedparser_parse catalog_get links_get quote strptime_ymd self).
Local Abbreviation raises := (date_raises strptime_ymd).
Local Abbreviation events := (record_events quote).
Local Abbreviation fetched self := (fetched_entries feedparser_parse self).
Local Abbreviation run_main := (Main.main feedparser_parse catalog_get links_get quote strptime_ymd write_file html_content).

(** X14.  Unless the Jazz Profiles feed is skipped, a date of that feed on
    which the date block raises makes [main] end with exit code 1 and
    without writing a file, whatever the format, Markdown and CSV, which
    do not use that feed, included. *)
Theorem main_fails_on_a_jazz_profiles_date
    (args : Main.Args) (st st1 : state World) (aaj_results : list row) :
  Main.skip_jazz_profiles args = false ->
  feed album_fetcher st = (Ok aaj_results, st1) ->
  Exists raises (fetched jazz_profiles_fetcher st1) ->
  Main.exit_code (run_main args st) = 1 /\ Main.files (run_main args st) = [].
Proof.
  intros Hskip Haaj Hex. unfold Main.main. rewrite Haaj, Hskip.
  destruct (process_feed_raises feedparser_parse catalog_get links_get quote
              strptime_ymd jazz_profiles_fetcher st1 Hex) as [st2 ->].
  split; reflexivity.
Qed.

(** X15.  For the Markdown and CSV formats, when the Jazz Profiles feed is
    not skipped and both fetches return, [main] hands over one file, made
    from the All About Jazz records alone, and yet has made every request
    of the Jazz Profiles records, six seconds of sleep for each of those
    found in the catalogue included. *)
Theorem main_fetches_jazz_profiles_for_markdown_and_csv
    (args : Main.Args) (st st1 st2 : state World) (aaj_results jp_results : list row) :
  Main.skip_jazz_profiles args = false ->
  Main.format args <> Main.html ->
  feed album_fetcher st = (Ok aaj_results, st1) ->
  feed jazz_profiles_fetcher st1 = (Ok jp_results, st2) ->
  Main.files (run_main args st)
    = [(Main.output args,
        match Main.format args with
        | Main.csv => generate_csv aaj_results
        | _ => generate_markdown aaj_results
        end)]
  /\ trace (Main.final (run_main args st))
     = trace st ++ FeedParse AlbumFetcher.RSS_URL :: flat_map events aaj_results
                ++ FeedParse JazzProfilesFetcher.RSS_URL :: flat_map events jp_results
  /\ seconds_slept (trace (Main.final (run_main args st)))
     = seconds_slept (trace st)
       + 6 * N.of_nat (found_in_catalog aaj_results)
       + 6 * N.of_nat (found_in_catalog jp_results).
Proof.
  intros Hskip Hfmt Haaj Hjp. unfold Main.main. rewrite Haaj, Hskip, Hjp.
  destruct (process_feed_trace feedparser_parse catalog_get links_get quote
              strptime_ymd album_fetcher st) as (new1 & T1 & R1).
  destruct (process_feed_trace feedparser_parse catalog_get links_get quote
              strptime_ymd jazz_profiles_fetcher st1) as (new2 & T2 & R2).
  rewrite Haaj in T1, R1. rewrite Hjp in T2, R2. cbn [fst snd] in T1, R1, T2, R2.
  subst new1 new2.
  assert (Ht : trace st2
               = trace st ++ FeedParse AlbumFetcher.RSS_URL :: flat_map events aaj_results
                   ++ FeedParse JazzProfilesFetcher.RSS_URL :: flat_map events jp_results).
  { rewrite T2, T1. cbn [RSS_URL album_fetcher jazz_profiles_fetcher].
    rewrite <- app_assoc. reflexivity. }
  assert (Hs : seconds_slept (trace st2)
               = seconds_slept (trace st)
                 + 6 * N.of_nat (found_in_catalog aaj_results)
                 + 6 * N.of_nat (found_in_catalog jp_results)).
  { rewrite Ht.
    change (FeedParse AlbumFetcher.RSS_URL :: flat_map events aaj_results
              ++ FeedParse JazzProfilesFetcher.RSS_URL :: flat_map events jp_results)
      with ([FeedParse AlbumFetcher.RSS_URL] ++ flat_map events aaj_results
              ++ [FeedParse JazzProfilesFetcher.RSS_URL] ++ flat_map events jp_results).
    rewrite !seconds_slept_app.
    destruct (counts_record_events quote aaj_results) as (_ & _ & ->).
    destruct (counts_record_events quote jp_results) as (_ & _ & ->).
    change (seconds_slept [FeedParse AlbumFetcher.RSS_URL]) with 0.
    change (seconds_slept [FeedParse JazzProfilesFetcher.RSS_URL]) with 0.
    lia. }
  destruct (Main.format args) eqn:Ef; [| |congruence]; cbn [Main.render];
    destruct (write_file _ _ (world st2)) as [written w'];
    cbn [Main.files Main.final trace];
    (split; [reflexivity | split; [exact Ht | exact Hs]]).
Qed.

(** X18.  When the Jazz Profiles feed is skipped and the All About Jazz
    fetch returns, [main] makes no request for the second feed: its trace
    is that of the All About Jazz records, one file is handed over, and the
    exit code is 0 exactly when that file could be written. *)
Theorem main_skips_jazz_profiles
    (args : Main.Args) (st st1 : state World) (aaj_results : list row) :
  Main.skip_jazz_profiles args = true ->
  feed album_fetcher st = (Ok aaj_results, st1) ->
  let rendered := Main.render html_content (Main.format args) aaj_results None (world st1) in
  let written := fst (write_file (Main.output args) (fst rendered) (snd rendered)) in
  Main.files (run_main args st) = [(Main.output args, fst rendered)]
  /\ Main.exit_code (run_main args st) = (if written then 0 else 1)
  /\ trace (Main.final (run_main args st))
     = trace st ++ FeedParse AlbumFetcher.RSS_URL :: flat_map events aaj_results.
Proof.
  intros Hskip Haaj. cbv zeta. unfold Main.main. rewrite Haaj, Hskip.
  destruct (process_feed_trace feedparser_parse catalog_get links_get quote
              strptime_ymd album_fetcher st) as (new1 & T1 & R1).
  rewrite Haaj in T1, R1. cbn [fst snd] in T1, R1. subst new1.
  destruct (Main.render html_content (Main.format args) aaj_results None (world st1))
    as [text w].
  cbn [fst snd]. destruct (write_file (Main.output args) text w) as [written w'].
  cbn [fst Main.files Main.exit_code Main.final trace].
  split; [reflexivity | split; [reflexivity | exact T1]].
Qed.

(** *** The sample script *)

(** On tuples of five strings the loop on tuples is the loop of
    [generate_markdown]. *)
Lemma markdown_items_rows (results : list row) :
  TestSample.markdown_items (map row_fields results)
  = (List.concat (map markdown_item results), false).
Proof.
  induction results as [|r rest IH]; [reflexivity|].
  destruct r as [[[[artist album] album_link] apple_link] date].
  cbn [map row_fields TestSample.markdown_items]. rewrite IH. reflexivity.
Qed.

Lemma generate_markdown_tuples_rows (results : list row) :
  TestSample.generate_markdown_tuples (map row_fields results)
  = (generate_markdown results, false).
Proof.
  unfold TestSample.generate_markdown_tuples, generate_markdown, TestSample.MARKDOWN_HEADER.
  destruct results as [|r rest].
  - cbn [map]. now rewrite <- !app_assoc.
  - change (map row_fields (r :: rest)) with (row_fields r :: map row_fields rest) at 1.
    cbv iota.
    change (row_fields r :: map row_fields rest) with (map row_fields (r :: rest)).
    rewrite markdown_items_rows. now rewrite <- !app_assoc.
Qed.




End Run.

(** The run of [main] with its defaults on a world whose second feed has
    the dates of an Atom feed, and on one whose second feed is read. *)
Definition demo_main_atom : Main.outcome :=
  Main.main Demo2.two_feeds_atom Demo.catalog_get Demo.links_get Demo.quote
    Demo.strptime_ymd Demo2.write_file Demo2.html_content Demo2.markdown_args Demo.start.

Definition demo_main : Main.outcome :=
  Main.main Demo2.two_feeds Demo2.catalog_all Demo.links_get Demo.quote
    Demo.strptime_ymd Demo2.write_file Demo2.html_content Demo2.markdown_args Demo.start.

Lemma main_fails_on_a_jazz_profiles_date_witness :
  Main.exit_code demo_main_atom = 1 /\ Main.files demo_main_atom = [].
Proof.
  apply (main_fails_on_a_jazz_profiles_date Demo2.two_feeds_atom Demo.catalog_get
           Demo.links_get Demo.quote Demo.strptime_ymd Demo2.write_file
           Demo2.html_content Demo2.markdown_args Demo.start
           (snd (process_feed Demo2.two_feeds_atom Demo.catalog_get Demo.links_get
                   Demo.quote Demo.strptime_ymd album_fetcher Demo.start))
           PipelineMore.demo_results).
  - reflexivity.
  - vm_compute. reflexivity.
  - apply Exists_cons_hd. vm_compute. reflexivity.
Defined.

Lemma main_fetches_jazz_profiles_for_markdown_and_csv_witness :
  Main.exit_code demo_main = 0
  /\ seconds_slept (trace (Main.final demo_main)) = 18
  /\ exists aaj_results,
       Main.files demo_main = [(py "jazz_albums.md", generate_markdown aaj_results)]
       /\ List.length aaj_results = 2%nat.
Proof.
  split; [vm_compute; reflexivity | split; [vm_compute; reflexivity|]].
  pose (run1 := process_feed Demo2.two_feeds Demo2.catalog_all Demo.links_get
                  Demo.quote Demo.strptime_ymd album_fetcher Demo.start).
  pose (run2 := process_feed Demo2.two_feeds Demo2.catalog_all Demo.links_get
                  Demo.quote Demo.strptime_ymd jazz_profiles_fetcher (snd run1)).
  exists (match fst run1 with Ok results => results | Raise _ => [] end).
  split; [|vm_compute; reflexivity].
  apply (main_fetches_jazz_profiles_for_markdown_and_csv Demo2.two_feeds
           Demo2.catalog_all Demo.links_get Demo.quote Demo.strptime_ymd
           Demo2.write_file Demo2.html_content Demo2.markdown_args Demo.start
           (snd run1) (snd run2)
           (match fst run1 with Ok results => results | Raise _ => [] end)
           (match fst run2 with Ok results => results | Raise _ => [] end)).
  - reflexivity.
  - discriminate.
  - vm_compute. reflexivity.
  - vm_compute. reflexivity.
Defined.

Lemma main_skips_jazz_profiles_witness :
  Main.exit_code
    (Main.main Demo2.two_feeds_atom Demo.catalog_get Demo.links_get Demo.quote
       Demo.strptime_ymd Demo2.write_file Demo2.html_content
       {| Main.output := py "albums.csv"; Main.format := Main.csv;
          Main.verbose := false; Main.skip_jazz_profiles := true |} Demo.start) = 0
  /\ Main.files
       (Main.main Demo2.two_feeds_atom Demo.catalog_get Demo.links_get Demo.quote
          Demo.strptime_ymd Demo2.write_file Demo2.html_content
          {| Main.output := py "albums.csv"; Main.format := Main.csv;
             Main.verbose := false; Main.skip_jazz_profiles := true |} Demo.start)
     = [(py "albums.csv", generate_csv PipelineMore.demo_results)].
Proof.
  destruct (main_skips_jazz_profiles Demo2.two_feeds_atom Demo.catalog_get
              Demo.links_get Demo.quote Demo.strptime_ymd Demo2.write_file
              Demo2.html_content
              {| Main.output := py "albums.csv"; Main.format := Main.csv;
                 Main.verbose := false; Main.skip_jazz_profiles := true |}
              Demo.start
              (snd (process_feed Demo2.two_feeds_atom Demo.catalog_get Demo.links_get
                      Demo.quote Demo.strptime_ymd album_fetcher Demo.start))
              PipelineMore.demo_results eq_refl)
    as (Hf & He & _).
  - vm_compute. reflexivity.
  - split; [exact He | exact Hf].
Defined.

(** The sample script where the catalogue knows every album, and where it
    knows none of the four. *)
Example test_sample_demo :
  fst (TestSample.test_with_sample_data Demo2.catalog_all Demo.links_get Demo.quote
         Demo.start)
    = Ok (TestSample.ValueError TestSample.MARKDOWN_HEADER)
  /\ fst (TestSample.test_with_sample_data Demo.catalog_get Demo.links_get Demo.quote
            Demo.start)
     = Ok TestSample.NoResults.
Proof. split; vm_compute; reflexivity. Qed.


End MainFacts.
